(** * The note store of the notes manager

    A shallow embedding of [src/notes_frontend/src/App.js]: the state held
    by [NotesProvider] (the note collection, theme, query, sort key and
    selection), its operations ([createNote], [updateNote], [toggleArchive],
    [deleteNote], [clearAll], the four setters), the derived view
    [filteredSortedNotes], and the tag editing of [TagInput]; then the
    event handlers of [Header], [Toolbar], [NoteList] and [NoteEditor],
    and the loading and saving of the state in local storage.

    Conventions of the embedding.
    - A note is a record with the seven fields the code writes.  Field
      values are typed as the data model has them: strings, a list of
      strings, two dates and a boolean.
    - A date is the number of milliseconds since the epoch ([Z]); the
      ISO-8601 string that [toISOString] stores and [new Date(..)] reads
      back is its serialisation, so [new Date(b) - new Date(a)] is a
      subtraction in [Z].
    - The React state is threaded explicitly: every operation maps a
      [Store] to a [Store].  The state setters of [useState] are the
      functions [setNotes], [setSelectedIdWith], ...
    - What the environment decides is an argument of the operation that
      asks for it: the clock ([new Date()], [Date.now()]), the random
      suffix of [genId], the answer to [window.confirm].  [updateNote]
      and [toggleArchive] read the clock once for each note they rewrite;
      the readings of one call are taken to be one value [now].
    - [String.prototype.trim], [toLowerCase] and [localeCompare] belong to
      the JavaScript runtime; the store is parametrised by them. *)

From Stdlib Require Import Ascii Decimal DecimalString DecimalZ.
From stdpp Require Import list strings sorting gmap.

Open Scope Z_scope.

(** ** Strings *)

(** [s.includes(q)]: [q] occurs in [s] as a contiguous run of characters. *)
Fixpoint includes (s q : string) : bool :=
  String.prefix q s ||
  match s with
  | EmptyString => false
  | String _ s' => includes s' q
  end.

(** [q] is a substring of [s]. *)
Definition contains (s q : string) : Prop :=
  ∃ pre post, s = pre +:+ q +:+ post.

(** The decimal rendering of an integer inside a template literal. *)
Definition string_of_Z (z : Z) : string :=
  NilEmpty.string_of_int (Z.to_int z).

(** ** Data model *)

Record Note := mkNote {
  id : string;
  title : string;
  content : string;
  tags : list string;
  createdAt : Z;
  updatedAt : Z;
  archived : bool
}.

(** The argument of [createNote]: an object that may carry a title, a
    content and a tags array ([None] is an absent property). *)
Record NoteData := mkNoteData {
  data_title : option string;
  data_content : option string;
  data_tags : option (list string)
}.

(** The second argument of [updateNote]: an object that may carry any of
    the fields of a note. *)
Record Updates := mkUpdates {
  upd_id : option string;
  upd_title : option string;
  upd_content : option string;
  upd_tags : option (list string);
  upd_createdAt : option Z;
  upd_updatedAt : option Z;
  upd_archived : option bool
}.

Record Store := mkStore {
  notes : list Note;
  theme : string;
  query : string;
  sortBy : string;
  selectedId : option string
}.

(** ** State setters ([useState]) *)

Definition setNotes (f : list Note → list Note) (s : Store) : Store :=
  {| notes := f (notes s); theme := theme s; query := query s;
     sortBy := sortBy s; selectedId := selectedId s |}.

Definition setSelectedIdWith (f : option string → option string) (s : Store) : Store :=
  {| notes := notes s; theme := theme s; query := query s;
     sortBy := sortBy s; selectedId := f (selectedId s) |}.

Definition setSelectedId (v : option string) : Store → Store :=
  setSelectedIdWith (λ _, v).

Definition setTheme (v : string) (s : Store) : Store :=
  {| notes := notes s; theme := v; query := query s;
     sortBy := sortBy s; selectedId := selectedId s |}.

Definition setQuery (v : string) (s : Store) : Store :=
  {| notes := notes s; theme := theme s; query := v;
     sortBy := sortBy s; selectedId := selectedId s |}.

Definition setSortBy (v : string) (s : Store) : Store :=
  {| notes := notes s; theme := theme s; query := query s;
     sortBy := v; selectedId := selectedId s |}.

(** [x || d] for an optional string [x]: [d] when [x] is [undefined] or
    empty. *)
Definition str_or (x : option string) (d : string) : string :=
  match x with
  | Some v => if decide (v = "") then d else v
  | None => d
  end.

(** The initial state: the notes and the theme read from local storage
    ([None] when the key is absent or unreadable), an empty query, the
    sort key [updatedAt] and no selection. *)
Definition initialStore (saved : option (list Note)) (savedTheme : option string) : Store :=
  {| notes := default [] saved;
     theme := str_or savedTheme "light";
     query := "";
     sortBy := "updatedAt";
     selectedId := None |}.

(** ** Operations that do not depend on the runtime's string functions *)

(** [`${Date.now()}-${Math.random().toString(36).slice(2, 8)}`]: [ms] is
    the clock reading and [rnd] the (at most six) characters kept of the
    random number's base-36 digits. *)
Definition genId (ms : Z) (rnd : string) : string :=
  string_of_Z ms +:+ "-" +:+ rnd.

(** [{ ...n, ...updates, updatedAt: now }] *)
Definition applyUpdates (n : Note) (updates : Updates) (now : Z) : Note :=
  {| id := default (id n) (upd_id updates);
     title := default (title n) (upd_title updates);
     content := default (content n) (upd_content updates);
     tags := default (tags n) (upd_tags updates);
     createdAt := default (createdAt n) (upd_createdAt updates);
     updatedAt := now;
     archived := default (archived n) (upd_archived updates) |}.

Definition updateNote (i : string) (updates : Updates) (now : Z) : Store → Store :=
  setNotes (λ prev,
    (λ n, if decide (id n = i) then applyUpdates n updates now else n) <$> prev).

(** [{ ...n, archived: !n.archived, updatedAt: now }] *)
Definition flipArchived (n : Note) (now : Z) : Note :=
  {| id := id n; title := title n; content := content n; tags := tags n;
     createdAt := createdAt n; updatedAt := now;
     archived := negb (archived n) |}.

Definition toggleArchive (i : string) (now : Z) : Store → Store :=
  setNotes (λ prev,
    (λ n, if decide (id n = i) then flipArchived n now else n) <$> prev).

Definition deleteNote (i : string) (s : Store) : Store :=
  setSelectedIdWith (λ prev, if decide (prev = Some i) then None else prev)
    (setNotes (λ prev, filter (λ n, id n ≠ i) prev) s).

(** [confirmed] is what [window.confirm] answered. *)
Definition clearAll (confirmed : bool) (s : Store) : Store :=
  if confirmed then setSelectedId None (setNotes (λ _, []) s) else s.

(** ** Sorting ([Array.prototype.sort])

    [sort] is stable, and with a consistent comparator it orders the array
    so that [cmp a b <= 0] for [a] before [b].  Insertion from the right
    is such a sort: an element goes in front of the first element it does
    not have to follow. *)
Fixpoint sort_insert {A} (cmp : A → A → Z) (x : A) (l : list A) : list A :=
  match l with
  | [] => [x]
  | y :: l' => if decide (cmp x y ≤ 0) then x :: l else y :: sort_insert cmp x l'
  end.

Definition array_sort {A} (cmp : A → A → Z) (l : list A) : list A :=
  foldr (sort_insert cmp) [] l.

(** A consistent comparator: the sign of [cmp a b] is the opposite of the
    sign of [cmp b a], and "not after" is transitive. *)
Definition consistent {A} (cmp : A → A → Z) : Prop :=
  (∀ a b, 0 < cmp a b ↔ cmp b a < 0)
  ∧ (∀ a b c, cmp a b ≤ 0 → cmp b c ≤ 0 → cmp a c ≤ 0).

(** ** Arrays by reference

    [filteredSortedNotes] aliases the collection ([let arr = notes]) and
    then sorts an array in place.  To tell a copy from an alias, arrays of
    notes live in a heap and are named by references; a new array gets the
    next free reference. *)
Abbreviation ref := nat (only parsing).

Definition alloc (a : list Note) (h : list (list Note)) : ref * list (list Note) :=
  (length h, h ++ [a]).

(** [r.sort(cmp)]: the array at [r] is reordered in place. *)
Definition sort_in_place (cmp : Note → Note → Z) (r : ref) (h : list (list Note))
    : list (list Note) :=
  alter (array_sort cmp) r h.

(** ** Tags: [Array.from(new Set(l))] keeps the first occurrence of every
    element, in order of insertion. *)
Definition set_add (acc : list string) (x : string) : list string :=
  if decide (x ∈ acc) then acc else acc ++ [x].

Definition array_from_set (l : list string) : list string :=
  foldl set_add [] l.

(** [TagInput.removeTag] hands [value.filter(x => x !== t)] to [onChange]. *)
Definition removeTag (value : list string) (t : string) : list string :=
  filter (λ x, x ≠ t) value.

Section Runtime.

Variable trim : string → string.
Variable toLowerCase : string → string.
Variable localeCompare : string → string → Z.

Definition createNote (data : NoteData) (now ms : Z) (rnd : string) (s : Store)
    : Note * Store :=
  let newNote :=
    {| id := genId ms rnd;
       title := str_or (trim <$> data_title data) "Untitled";
       content := str_or (data_content data) "";
       tags := default [] (data_tags data);
       createdAt := now;
       updatedAt := now;
       archived := false |} in
  (newNote, setSelectedId (Some (id newNote)) (setNotes (λ prev, newNote :: prev) s)).

(** The predicate of the [filter] call, for a query [q] already trimmed
    and lower-cased. *)
Definition matchesQuery (q : string) (n : Note) : bool :=
  includes (toLowerCase (title n)) q
  || includes (toLowerCase (content n)) q
  || existsb (λ t, includes (toLowerCase t) q) (tags n).

(** The first half of [filteredSortedNotes]. *)
Definition filterNotes (query : string) (notes : list Note) : list Note :=
  let q := toLowerCase (trim query) in
  if decide (q = "") then notes else filter (λ n, matchesQuery q n) notes.

(** The comparator handed to [sort]. *)
Definition compareNotes (sortBy : string) (a b : Note) : Z :=
  if decide (sortBy = "title") then localeCompare (title a) (title b)
  else if decide (sortBy = "createdAt") then createdAt b - createdAt a
  else updatedAt b - updatedAt a.

(** [filteredSortedNotes] as a value. *)
Definition filteredSortedNotes (s : Store) : list Note :=
  array_sort (compareNotes (sortBy s)) (filterNotes (query s) (notes s)).

(** [filteredSortedNotes] on the heap: [r] is the reference held in the
    [notes] state; the result is the reference returned and the heap
    left behind.  [filter] and the spread [[...arr]] allocate, [sort]
    mutates. *)
Definition filteredSortedNotes_heap (r : ref) (query sortBy : string)
    (h : list (list Note)) : option (ref * list (list Note)) :=
  ns ← h !! r;
  let q := toLowerCase (trim query) in
  let '(arr, h1) :=
    if decide (q = "") then (r, h) else alloc (filter (λ n, matchesQuery q n) ns) h in
  a ← h1 !! arr;
  let '(copy, h2) := alloc a h1 in
  Some (copy, sort_in_place (compareNotes sortBy) copy h2).

(** [TagInput.addTag]: what is handed to [onChange], [None] when the text
    is blank and [onChange] is not called. *)
Definition addTag (value : list string) (text : string) : option (list string) :=
  let t := trim text in
  if decide (t = "") then None else Some (array_from_set (value ++ [t])).

(** [{ tags }], the patch [NoteEditor.onTags] hands to [updateNote]. *)
Definition tagsPatch (tg : list string) : Updates :=
  mkUpdates None None None (Some tg) None None None.

(** [notes.find(n => n.id === selectedId)], the note open in the editor. *)
Definition selectedNote (s : Store) : option Note :=
  find (λ n, bool_decide (Some (id n) = selectedId s)) (notes s).

(** Adding and removing a tag in the editor: [TagInput] is rendered with
    the tags of the selected note and its [onChange] is [onTags]. *)
Definition editorAddTag (text : string) (now : Z) (s : Store) : Store :=
  match selectedNote s with
  | Some note =>
      match addTag (tags note) text with
      | Some next => updateNote (id note) (tagsPatch next) now s
      | None => s
      end
  | None => s
  end.

Definition editorRemoveTag (t : string) (now : Z) (s : Store) : Store :=
  match selectedNote s with
  | Some note => updateNote (id note) (tagsPatch (removeTag (tags note) t)) now s
  | None => s
  end.

(** ** The store as a transition system *)

Inductive action :=
  | CreateNote (data : NoteData) (now ms : Z) (rnd : string)
  | UpdateNote (i : string) (updates : Updates) (now : Z)
  | ToggleArchive (i : string) (now : Z)
  | DeleteNote (i : string)
  | ClearAll (confirmed : bool)
  | SetQuery (v : string)
  | SetSortBy (v : string)
  | SetSelectedId (v : option string)
  | SetTheme (v : string).

Definition step (s : Store) (a : action) : Store :=
  match a with
  | CreateNote data now ms rnd => (createNote data now ms rnd s).2
  | UpdateNote i updates now => updateNote i updates now s
  | ToggleArchive i now => toggleArchive i now s
  | DeleteNote i => deleteNote i s
  | ClearAll confirmed => clearAll confirmed s
  | SetQuery v => setQuery v s
  | SetSortBy v => setSortBy v s
  | SetSelectedId v => setSelectedId v s
  | SetTheme v => setTheme v s
  end.

Definition run (s : Store) (l : list action) : Store := foldl step s l.

(** Every note of the store has a duplicate-free list of tags. *)
Definition tags_unique (s : Store) : Prop :=
  Forall (λ n, NoDup (tags n)) (notes s).


End Runtime.

(** ** Runtime string functions on ASCII text

    Instances of the three runtime functions, used to run the store on
    concrete inputs. *)
Fixpoint trim_start (s : string) : string :=
  match s with
  | String c s' => if Ascii.is_space c then trim_start s' else s
  | EmptyString => EmptyString
  end.

Definition ascii_trim (s : string) : string :=
  String.rev (trim_start (String.rev (trim_start s))).

Definition ascii_lower (c : ascii) : ascii :=
  let n := N_of_ascii c in
  if (65 <=? n)%N && (n <=? 90)%N then ascii_of_N (n + 32) else c.

Fixpoint ascii_toLowerCase (s : string) : string :=
  match s with
  | String c s' => String (ascii_lower c) (ascii_toLowerCase s')
  | EmptyString => EmptyString
  end.

(** Comparison by character codes. *)
Definition code_compare (a b : string) : Z :=
  match String.compare a b with
  | Lt => -1
  | Eq => 0
  | Gt => 1
  end.

(** ** Auxiliary notions for the properties *)

(** [prev.map(n => n.id === i ? f(n) : n)] *)
Definition map_at_id (i : string) (f : Note → Note) (l : list Note) : list Note :=
  (λ n, if decide (id n = i) then f n else n) <$> l.

(** [s'] differs from [s] only in the notes whose id is [i], each of which
    has become [f] of itself at the same position; with unique ids that is
    the one position of [n]. *)
Definition changes_only_at (i : string) (f : Note → Note) (n : Note)
    (s s' : Store) : Prop :=
  length (notes s') = length (notes s)
  ∧ (∀ k m, notes s !! k = Some m → id m ≠ i → notes s' !! k = Some m)
  ∧ (∀ k m, notes s !! k = Some m → id m = i → notes s' !! k = Some (f m))
  ∧ (NoDup (id <$> notes s) →
       ∃ pre post, notes s = pre ++ n :: post ∧ notes s' = pre ++ f n :: post)
  ∧ theme s' = theme s ∧ query s' = query s
  ∧ sortBy s' = sortBy s ∧ selectedId s' = selectedId s.

(** ** A concrete run

    The store run on concrete inputs, with the ASCII string functions. *)
Definition scenario_actions : list action :=
  [CreateNote (mkNoteData (Some "Alpha") None None) 10 10 "aaaaaa";
   CreateNote (mkNoteData (Some " Beta ") (Some "second") None) 20 21 "bbbbbb"].

Definition scenario_store : Store :=
  run ascii_trim (initialStore None None) scenario_actions.

Definition noteA : Note := mkNote "10-aaaaaa" "Alpha" "" [] 10 10 false.
Definition noteB : Note := mkNote "21-bbbbbb" "Beta" "second" [] 20 20 false.

(** ** The interface: [Header], [Toolbar], [NoteList], [NoteEditor]

    What the components do to the store when the user acts. *)

(** The values of the three [<option>]s of the sort [<select>]. *)
Inductive sortOption := ByUpdatedAt | ByCreatedAt | ByTitle.

Definition sortOption_value (o : sortOption) : string :=
  match o with
  | ByUpdatedAt => "updatedAt"
  | ByCreatedAt => "createdAt"
  | ByTitle => "title"
  end.

(** [Header.onToggle]: [setTheme(theme === 'light' ? 'dark' : 'light')]. *)
Definition onToggle (s : Store) : Store :=
  setTheme (if decide (theme s = "light") then "dark" else "light") s.

(** [{ title }] and [{ content }], the patches of [onTitle] and
    [onContent]. *)
Definition titlePatch (v : string) : Updates :=
  mkUpdates None (Some v) None None None None None.

Definition contentPatch (v : string) : Updates :=
  mkUpdates None None (Some v) None None None None.

(** [NoteEditor]: the handlers exist only while a note is open. *)
Definition onTitle (v : string) (now : Z) (s : Store) : Store :=
  match selectedNote s with
  | Some note => updateNote (id note) (titlePatch v) now s
  | None => s
  end.

Definition onContent (v : string) (now : Z) (s : Store) : Store :=
  match selectedNote s with
  | Some note => updateNote (id note) (contentPatch v) now s
  | None => s
  end.

Definition onArchive (now : Z) (s : Store) : Store :=
  match selectedNote s with
  | Some note => toggleArchive (id note) now s
  | None => s
  end.

Definition onDelete (s : Store) : Store :=
  match selectedNote s with
  | Some note => deleteNote (id note) s
  | None => s
  end.

(** [NoteList]: what an item shows under the title,
    [(n.content || '').slice(0, 80) || 'No content']. *)
Definition preview (n : Note) : string :=
  let p := String.substring 0 80 (content n) in
  if decide (p = "") then "No content" else p.

Section Interface.

Variable trim : string → string.
Variable toLowerCase : string → string.
Variable localeCompare : string → string → Z.

(** The "+ New" button: [createNote({ title: 'New note' })]. *)
Definition onNew (now ms : Z) (rnd : string) (s : Store) : Store :=
  (createNote trim (mkNoteData (Some "New note") None None) now ms rnd s).2.

(** A click (or Enter, or space) on the [k]-th item of the list:
    [setSelectedId(n.id)] for the [k]-th visible note. *)
Definition onItem (k : nat) (s : Store) : Store :=
  match filteredSortedNotes trim toLowerCase localeCompare s !! k with
  | Some n => setSelectedId (Some (id n)) s
  | None => s
  end.

(** The "×" of a tag is rendered for the tags of the open note only. *)
Definition onRemoveTag (t : string) (now : Z) (s : Store) : Store :=
  match selectedNote s with
  | Some note => if decide (t ∈ tags note) then editorRemoveTag t now s else s
  | None => s
  end.

Inductive event :=
  | ClickNew (now ms : Z) (rnd : string)
  | ClickClear (confirmed : bool)
  | ClickTheme
  | TypeSearch (v : string)
  | ChooseSort (o : sortOption)
  | ClickItem (k : nat)
  | EditTitle (v : string) (now : Z)
  | EditContent (v : string) (now : Z)
  | ClickArchive (now : Z)
  | ClickDelete
  | AddTag (text : string) (now : Z)
  | RemoveTag (t : string) (now : Z).

Definition handle (s : Store) (e : event) : Store :=
  match e with
  | ClickNew now ms rnd => onNew now ms rnd s
  | ClickClear confirmed => clearAll confirmed s
  | ClickTheme => onToggle s
  | TypeSearch v => setQuery v s
  | ChooseSort o => setSortBy (sortOption_value o) s
  | ClickItem k => onItem k s
  | EditTitle v now => onTitle v now s
  | EditContent v now => onContent v now s
  | ClickArchive now => onArchive now s
  | ClickDelete => onDelete s
  | AddTag text now => editorAddTag trim text now s
  | RemoveTag t now => onRemoveTag t now s
  end.

Definition session (s : Store) (l : list event) : Store := foldl handle s l.

End Interface.

(** The clock reading an event takes for the dates of a note, if any. *)
Definition event_time (e : event) : option Z :=
  match e with
  | ClickNew now _ _ | EditTitle _ now | EditContent _ now
  | ClickArchive now | AddTag _ now | RemoveTag _ now => Some now
  | _ => None
  end.

(** The clock does not run backwards along the events, starting at [t]. *)
Fixpoint clock_monotone (t : Z) (l : list event) : Prop :=
  match l with
  | [] => True
  | e :: l' =>
      match event_time e with
      | Some now => t ≤ now ∧ clock_monotone now l'
      | None => clock_monotone t l'
      end
  end.

(** The selection is empty or names a note of the collection. *)
Definition selection_valid (s : Store) : Prop :=
  ∀ i, selectedId s = Some i → i ∈ id <$> notes s.

(** No note was updated before it was created or after [t]. *)
Definition dates_ordered (t : Z) (s : Store) : Prop :=
  Forall (λ n, createdAt n ≤ updatedAt n ∧ updatedAt n ≤ t) (notes s).

(** The sort key is one of the three the [<select>] offers; the theme is
    one of the two the button switches between. *)
Definition sortBy_valid (s : Store) : Prop :=
  ∃ o, sortBy s = sortOption_value o.

Definition theme_valid (s : Store) : Prop :=
  theme s = "light" ∨ theme s = "dark".

(** What an edit in the editor can make of the store at clock reading
    [now]: nothing, an [updateNote] with a patch that carries neither an
    id nor a [createdAt] (and tags without duplicates, if the tags of the
    store have none), or a [toggleArchive]. *)
Inductive edited (s : Store) (now : Z) : Store → Prop :=
  | edited_nothing : edited s now s
  | edited_update i updates :
      upd_id updates = None →
      upd_createdAt updates = None →
      (tags_unique s → from_option NoDup True (upd_tags updates)) →
      edited s now (updateNote i updates now s)
  | edited_toggle i : edited s now (toggleArchive i now s).


(** ** Persistence ([localStorage])

    The storage is a map from keys to strings.  An access can throw; the
    code catches it.  [JSON.stringify] and [JSON.parse] belong to the
    runtime; [parse] is [None] where [JSON.parse] throws. *)
Definition NOTES_KEY : string := "notes_manager__notes".
Definition THEME_KEY : string := "notes_manager__theme".

Section Persistence.

Variable stringify : list Note → string.
Variable parse : string → option (list Note).

(** The initialiser of the [notes] state; [got] is what [getItem]
    returned, [None] when it threw. *)
Definition savedNotes (got : option (option string)) : option (list Note) :=
  match got with
  | Some (Some raw) => if decide (raw = "") then None else parse raw
  | _ => None
  end.

(** The state after mounting the provider on a storage; [readable] is
    whether reading it works. *)
Definition boot (readable : bool) (st : gmap string string) : Store :=
  initialStore
    (savedNotes (if readable then Some (st !! NOTES_KEY) else None))
    (if readable then st !! THEME_KEY else None).

(** The two persisting effects, run after a render; [okNotes] and
    [okTheme] are whether the two [setItem] calls went through. *)
Definition persist (okNotes okTheme : bool) (s : Store) (st : gmap string string)
    : gmap string string :=
  let st1 := if okNotes then <[NOTES_KEY := stringify (notes s)]> st else st in
  if okTheme then <[THEME_KEY := theme s]> st1 else st1.

End Persistence.

(** * Properties *)

(** ** Identifiers *)

(** A run of decimal digits followed by a dash determines the digits:
    no digit is a dash. *)
Lemma string_of_uint_dash_inj d d' r r' :
  NilEmpty.string_of_uint d +:+ String "-" r
  = NilEmpty.string_of_uint d' +:+ String "-" r' →
  d = d' ∧ r = r'.
Proof.
  revert d'. induction d as [|d IH|d IH|d IH|d IH|d IH|d IH|d IH|d IH|d IH|d IH];
    intros [|d'|d'|d'|d'|d'|d'|d'|d'|d'|d']; simpl; intros H;
    try discriminate H; injection H as H;
    try (destruct (IH _ H) as [-> ->]); by subst.
Qed.

Lemma Z_to_int_Pos_nonnil z d : Z.to_int z = Pos d → d ≠ Nil.
Proof.
  destruct z as [|p|p]; simpl; intros [= <-]; [done|].
  apply DecimalPos.Unsigned.to_uint_nonnil.
Qed.

(** Two identifiers are equal only when they come from the same clock
    reading and the same random suffix. *)
Lemma genId_inj ms rnd ms' rnd' :
  genId ms rnd = genId ms' rnd' → ms = ms' ∧ rnd = rnd'.
Proof.
  unfold genId, string_of_Z, NilEmpty.string_of_int. intros H.
  destruct (Z.to_int ms) as [d|d] eqn:E, (Z.to_int ms') as [d'|d'] eqn:E'; simpl in H.
  - apply string_of_uint_dash_inj in H as [-> ->].
    split; [|done]. apply DecimalZ.to_int_inj. congruence.
  - apply Z_to_int_Pos_nonnil in E. destruct d; try done; discriminate H.
  - apply Z_to_int_Pos_nonnil in E'. destruct d'; try done; discriminate H.
  - injection H as H. apply string_of_uint_dash_inj in H as [-> ->].
    split; [|done]. apply DecimalZ.to_int_inj. congruence.
Qed.

(** ** Creating a note *)

Section CreateNote.

Variable trim : string → string.

Lemma createNote_title data now ms rnd s :
  title (createNote trim data now ms rnd s).1
  = match data_title data with
    | Some t => if decide (trim t = "") then "Untitled" else trim t
    | None => "Untitled"
    end.
Proof. simpl. by destruct (data_title data). Qed.

Lemma createNote_content data now ms rnd s :
  content (createNote trim data now ms rnd s).1 = default "" (data_content data).
Proof.
  simpl. destruct (data_content data) as [c|]; simpl; [|done].
  by case_decide.
Qed.

(** C1 (as amended): [createNote] always returns a note; its id is
    [genId] of the clock reading and the random suffix, which differs from
    the id of every existing note that was generated from another (clock
    reading, suffix) pair; the title is "Untitled" when the given title is
    absent or blank after trimming and the trimmed title otherwise, the
    content defaults to the empty string, the tags to the empty list,
    [archived] is false, [createdAt] and [updatedAt] are the current time;
    the note is put in front of the collection and selected, and the rest
    of the state is unchanged. *)
Theorem createNote_spec data now ms rnd s :
  ∃ n s',
    createNote trim data now ms rnd s = (n, s')
    ∧ id n = genId ms rnd
    ∧ (∀ m ms' rnd', m ∈ notes s → id m = genId ms' rnd' →
         (ms', rnd') ≠ (ms, rnd) → id m ≠ id n)
    ∧ (∀ t, data_title data = Some t → trim t = "" → title n = "Untitled")
    ∧ (data_title data = None → title n = "Untitled")
    ∧ (∀ t, data_title data = Some t → trim t ≠ "" → title n = trim t)
    ∧ content n = default "" (data_content data)
    ∧ tags n = default [] (data_tags data)
    ∧ archived n = false
    ∧ createdAt n = now ∧ updatedAt n = now
    ∧ notes s' = n :: notes s
    ∧ selectedId s' = Some (id n)
    ∧ theme s' = theme s ∧ query s' = query s ∧ sortBy s' = sortBy s.
Proof.
  eexists _, _. split; [reflexivity|].
  pose proof (createNote_title data now ms rnd s) as Ht.
  pose proof (createNote_content data now ms rnd s) as Hc.
  simpl in Ht, Hc |- *. repeat split; try done.
  - intros m ms' rnd' _ Hm Hne Heq. rewrite Hm in Heq.
    apply genId_inj in Heq as [-> ->]. by apply Hne.
  - intros t Hsome Hblank. rewrite Ht, Hsome. by rewrite decide_True.
  - intros Hnone. by rewrite Ht, Hnone.
  - intros t Hsome Hblank. rewrite Ht, Hsome. by rewrite decide_False.
Qed.

End CreateNote.

(** C1 (as stated) fails: two calls of [createNote] that read the same
    clock value and draw the same random suffix give the second note the
    id of the first, which is already in the collection. *)
Lemma createNote_id_not_fresh :
  let d := mkNoteData (Some "New note") None None in
  let s := (createNote ascii_trim d 1700000000000 1700000000000 "k3j9zq"
              (initialStore None None)).2 in
  let n := (createNote ascii_trim d 1700000000000 1700000000000 "k3j9zq" s).1 in
  ∃ m, m ∈ notes s ∧ id m = id n.
Proof.
  eexists. split; [apply list_elem_of_here|]. reflexivity.
Qed.

(** ** Updating, archiving and deleting by id *)

Lemma updateNote_notes i updates now s :
  notes (updateNote i updates now s)
  = map_at_id i (λ n, applyUpdates n updates now) (notes s).
Proof. done. Qed.

Lemma toggleArchive_notes i now s :
  notes (toggleArchive i now s) = map_at_id i (λ n, flipArchived n now) (notes s).
Proof. done. Qed.

Lemma map_at_id_length i f l : length (map_at_id i f l) = length l.
Proof. apply length_fmap. Qed.

Lemma map_at_id_lookup_hit i f l k n :
  l !! k = Some n → id n = i → map_at_id i f l !! k = Some (f n).
Proof.
  intros Hk Hid. unfold map_at_id. rewrite list_lookup_fmap, Hk. simpl.
  by rewrite decide_True.
Qed.

Lemma map_at_id_lookup_miss i f l k n :
  l !! k = Some n → id n ≠ i → map_at_id i f l !! k = Some n.
Proof.
  intros Hk Hid. unfold map_at_id. rewrite list_lookup_fmap, Hk. simpl.
  by rewrite decide_False.
Qed.

Lemma map_at_id_absent i f l :
  Forall (λ n, id n ≠ i) l → map_at_id i f l = l.
Proof.
  induction 1 as [|n l Hn _ IH]; [done|].
  unfold map_at_id in *. rewrite fmap_cons, IH. by rewrite decide_False.
Qed.

Lemma filter_id_absent i (l : list Note) :
  Forall (λ n, id n ≠ i) l → filter (λ n, id n ≠ i) l = l.
Proof.
  induction 1 as [|n l Hn _ IH]; [done|].
  by rewrite filter_cons_True, IH.
Qed.

(** With unique ids, a note of the collection splits it into the notes
    before and after, none of which has its id. *)
Lemma unique_id_split (l : list Note) n :
  NoDup (id <$> l) → n ∈ l →
  ∃ pre post, l = pre ++ n :: post ∧ Forall (λ m, id m ≠ id n) (pre ++ post).
Proof.
  intros Hnd Hin. apply list_elem_of_split in Hin as (pre & post & ->).
  exists pre, post. split; [done|].
  rewrite fmap_app, fmap_cons in Hnd.
  apply NoDup_app in Hnd as (_ & Hpre & Hpost).
  apply NoDup_cons in Hpost as [Hpost _].
  apply Forall_app. split; apply Forall_forall; intros m Hm Heq.
  - apply (Hpre (id m)); [by apply list_elem_of_fmap_2|].
    rewrite Heq. apply list_elem_of_here.
  - apply Hpost. rewrite <-Heq. by apply list_elem_of_fmap_2.
Qed.

Lemma map_at_id_unique i f (l : list Note) n :
  NoDup (id <$> l) → n ∈ l → id n = i →
  ∃ pre post, l = pre ++ n :: post ∧ map_at_id i f l = pre ++ f n :: post.
Proof.
  intros Hnd Hin <-.
  destruct (unique_id_split l n Hnd Hin) as (pre & post & -> & Hrest).
  apply Forall_app in Hrest as [Hpre Hpost].
  exists pre, post. split; [done|].
  unfold map_at_id. rewrite fmap_app, fmap_cons, decide_True by done.
  fold (map_at_id (id n) f pre) (map_at_id (id n) f post).
  by rewrite !map_at_id_absent.
Qed.


(** C2 (as amended): for a note of the collection whose id is the one
    given, [updateNote] leaves at its position the note with every field
    the patch carries taken from the patch (the id and [createdAt]
    included), every other field kept, and [updatedAt] set to the current
    time whatever the patch says; so the id and [createdAt] are the same
    as before whenever the patch carries neither. *)
Theorem updateNote_merges i updates now s k n :
  notes s !! k = Some n → id n = i →
  ∃ n', notes (updateNote i updates now s) !! k = Some n'
    ∧ id n' = default (id n) (upd_id updates)
    ∧ title n' = default (title n) (upd_title updates)
    ∧ content n' = default (content n) (upd_content updates)
    ∧ tags n' = default (tags n) (upd_tags updates)
    ∧ createdAt n' = default (createdAt n) (upd_createdAt updates)
    ∧ archived n' = default (archived n) (upd_archived updates)
    ∧ updatedAt n' = now
    ∧ (upd_id updates = None → id n' = id n)
    ∧ (upd_createdAt updates = None → createdAt n' = createdAt n).
Proof.
  intros Hk Hid. exists (applyUpdates n updates now).
  split.
  { rewrite updateNote_notes.
    by apply (map_at_id_lookup_hit i (λ m, applyUpdates m updates now)). }
  simpl. repeat split; try done; by intros ->.
Qed.

Lemma updateNote_merges_witness :
  let n := mkNote "1-a" "Alpha" "" [] 1 1 false in
  let s := mkStore [n] "light" "" "updatedAt" None in
  ∃ n', notes (updateNote "1-a" (mkUpdates None (Some "Beta") None None None None None) 9 s)
          !! 0%nat = Some n'
    ∧ id n' = "1-a" ∧ title n' = "Beta" ∧ createdAt n' = 1 ∧ updatedAt n' = 9.
Proof.
  destruct (updateNote_merges "1-a"
    (mkUpdates None (Some "Beta") None None None None None) 9
    (mkStore [mkNote "1-a" "Alpha" "" [] 1 1 false] "light" "" "updatedAt" None)
    0%nat (mkNote "1-a" "Alpha" "" [] 1 1 false) eq_refl eq_refl)
    as (n' & Hn' & Hid & Ht & _ & _ & Hc & _ & Hu & _).
  exists n'. simpl in *. by repeat split.
Defined.

(** C2 (as stated) fails: a patch that carries an id and a [createdAt]
    replaces both. *)
Lemma updateNote_overwrites_id :
  let s := (createNote ascii_trim (mkNoteData (Some "Alpha") None None) 5 5 "abc"
              (initialStore None None)).2 in
  let patch := mkUpdates (Some "other") None None None (Some 99) None None in
  notes s = [mkNote "5-abc" "Alpha" "" [] 5 5 false]
  ∧ notes (updateNote "5-abc" patch 7 s) = [mkNote "other" "Alpha" "" [] 99 7 false].
Proof. split; reflexivity. Qed.

Lemma map_at_id_changes_only_at i f n s s' :
  n ∈ notes s → id n = i →
  notes s' = map_at_id i f (notes s) →
  theme s' = theme s → query s' = query s →
  sortBy s' = sortBy s → selectedId s' = selectedId s →
  changes_only_at i f n s s'.
Proof.
  intros Hin Hid Hnotes Ht Hq Hs Hsel. unfold changes_only_at.
  rewrite Hnotes. split; [apply map_at_id_length|].
  split; [intros k m; apply map_at_id_lookup_miss|].
  split; [intros k m; apply map_at_id_lookup_hit|].
  split; [|done].
  intros Hnd. by apply map_at_id_unique.
Qed.

(** C10 (as amended): for an id that matches a note of the collection,
    [updateNote] and [toggleArchive] modify every note that has the id,
    each at its position; they keep the number of notes, keep every note
    with another id at its position and unchanged, and leave the theme,
    the query, the sort key and the selection as they were; when the ids
    of the collection are unique, the collection changes at the one
    position of the matching note. *)
Theorem update_toggle_frame i updates now s n :
  n ∈ notes s → id n = i →
  changes_only_at i (λ m, applyUpdates m updates now) n s (updateNote i updates now s)
  ∧ changes_only_at i (λ m, flipArchived m now) n s (toggleArchive i now s).
Proof.
  intros Hin Hid. split.
  - by apply map_at_id_changes_only_at.
  - by apply map_at_id_changes_only_at.
Qed.

Lemma update_toggle_frame_witness :
  let a := mkNote "1-a" "Alpha" "" [] 1 1 false in
  let b := mkNote "2-b" "Beta" "" ["x"] 2 2 false in
  let s := mkStore [b; a] "light" "be" "title" (Some "2-b") in
  notes (toggleArchive "1-a" 9 s) !! 0%nat = Some b
  ∧ notes (toggleArchive "1-a" 9 s) !! 1%nat = Some (flipArchived a 9)
  ∧ notes (updateNote "1-a" (mkUpdates None (Some "A") None None None None None) 9 s)
    = [b; mkNote "1-a" "A" "" [] 1 9 false]
  ∧ selectedId (toggleArchive "1-a" 9 s) = Some "2-b".
Proof.
  intros a b s.
  destruct (update_toggle_frame "1-a"
    (mkUpdates None (Some "A") None None None None None) 9 s a)
    as [(_ & _ & _ & Huniq & _) (_ & Hmiss & Hhit & _ & _ & _ & _ & Hsel)].
  - apply list_elem_of_further, list_elem_of_here.
  - reflexivity.
  - split; [by apply Hmiss|]. split; [by apply Hhit|]. split; [|exact Hsel].
    destruct Huniq as (pre & post & Hs & ->); [by apply (bool_decide_unpack _)|].
    destruct pre as [|x [|y pre]]; simplify_eq/=; [done|].
    by destruct pre.
Defined.

(** C10 (as stated) fails: when two notes share an id, as after two calls
    of [createNote] that read the same clock value and draw the same
    suffix, [toggleArchive] and [updateNote] of that id modify both notes,
    not one. *)
Lemma toggleArchive_updateNote_modify_every_match :
  let s0 := (createNote ascii_trim (mkNoteData (Some "Alpha") None None)
               5 5 "abc" (initialStore None None)).2 in
  let s := (createNote ascii_trim (mkNoteData (Some "Beta") None None)
              6 5 "abc" s0).2 in
  notes s = [mkNote "5-abc" "Beta" "" [] 6 6 false;
             mkNote "5-abc" "Alpha" "" [] 5 5 false]
  ∧ notes (toggleArchive "5-abc" 9 s)
    = [mkNote "5-abc" "Beta" "" [] 6 9 true;
       mkNote "5-abc" "Alpha" "" [] 5 9 true]
  ∧ notes (updateNote "5-abc" (mkUpdates None None (Some "text") None None None None) 9 s)
    = [mkNote "5-abc" "Beta" "text" [] 6 9 false;
       mkNote "5-abc" "Alpha" "text" [] 5 9 false].
Proof. repeat split. Qed.

(** ** Unknown ids *)

Lemma absent_id_Forall i (l : list Note) :
  (∀ n, n ∈ l → id n ≠ i) ↔ Forall (λ n, id n ≠ i) l.
Proof. symmetry. apply Forall_forall. Qed.

Lemma store_eq s s' :
  notes s = notes s' → theme s = theme s' → query s = query s' →
  sortBy s = sortBy s' → selectedId s = selectedId s' → s = s'.
Proof. destruct s, s'; simpl; congruence. Qed.

(** C3 (as amended): for an id that no note of the collection has,
    [updateNote] and [toggleArchive] return the store they were given, and
    [deleteNote] leaves the collection, the theme, the query and the sort
    key as they were; it returns the store it was given when the selection
    is not that id, and clears the selection when it is.  All three are
    total functions: none can fail. *)
Theorem unknown_id_noop i s :
  (∀ n, n ∈ notes s → id n ≠ i) →
  (∀ updates now, updateNote i updates now s = s)
  ∧ (∀ now, toggleArchive i now s = s)
  ∧ notes (deleteNote i s) = notes s
  ∧ theme (deleteNote i s) = theme s
  ∧ query (deleteNote i s) = query s
  ∧ sortBy (deleteNote i s) = sortBy s
  ∧ (selectedId s ≠ Some i → deleteNote i s = s)
  ∧ (selectedId s = Some i → selectedId (deleteNote i s) = None).
Proof.
  intros Habs. apply absent_id_Forall in Habs.
  assert (notes (deleteNote i s) = notes s) as Hdel.
  { simpl. by apply filter_id_absent. }
  split.
  { intros updates now. apply store_eq; try done.
    rewrite updateNote_notes. by apply map_at_id_absent. }
  split.
  { intros now. apply store_eq; try done.
    rewrite toggleArchive_notes. by apply map_at_id_absent. }
  repeat split; try done.
  - intros Hsel. apply store_eq; try done. simpl. by rewrite decide_False.
  - intros Hsel. simpl. by rewrite decide_True.
Qed.

Lemma unknown_id_noop_witness :
  let a := mkNote "1-a" "Alpha" "" [] 1 1 false in
  let s := mkStore [a] "light" "" "updatedAt" (Some "1-a") in
  toggleArchive "zz" 9 s = s ∧ deleteNote "zz" s = s.
Proof.
  intros a s.
  destruct (unknown_id_noop "zz" s) as (_ & Htog & _ & _ & _ & _ & Hdel & _).
  - intros n Hn. apply list_elem_of_singleton in Hn as ->. discriminate.
  - split; [apply Htog|]. apply Hdel. discriminate.
Defined.

(** C3 (as stated) fails: after [setSelectedId] of an id that no note
    has, [deleteNote] of that id changes the store: it clears the
    selection. *)
Lemma deleteNote_unknown_id_clears_selection :
  let s := setSelectedId (Some "ghost") (initialStore None None) in
  notes s = []
  ∧ selectedId s = Some "ghost"
  ∧ selectedId (deleteNote "ghost" s) = None.
Proof. repeat split. Qed.

(** ** Deleting *)




(** ** Clearing *)

(** C5: [clearAll] returns the store it was given when the confirmation
    is rejected; when it is accepted the collection is empty and nothing
    is selected (theme, query and sort key are kept). *)
Theorem clearAll_gated s :
  clearAll false s = s
  ∧ notes (clearAll true s) = []
  ∧ selectedId (clearAll true s) = None
  ∧ theme (clearAll true s) = theme s
  ∧ query (clearAll true s) = query s
  ∧ sortBy (clearAll true s) = sortBy s.
Proof.
  split.
  - unfold clearAll. reflexivity.
  - unfold clearAll, setSelectedId, setSelectedIdWith, setNotes. simpl.
    repeat split.
Qed.

(** ** Setters *)

(** C9 (as amended): none of the four setters validates its argument:
    [setSortBy] makes the sort key whatever string it is given and
    [setTheme] the theme, inside the enumeration or not, as [setQuery] and
    [setSelectedId] do for the query and the selection; each leaves the
    rest of the store as it was. *)
Theorem setters_do_not_validate s :
  (∀ v, setSortBy v s = mkStore (notes s) (theme s) (query s) v (selectedId s))
  ∧ (∀ v, setTheme v s = mkStore (notes s) v (query s) (sortBy s) (selectedId s))
  ∧ (∀ v, setQuery v s = mkStore (notes s) (theme s) v (sortBy s) (selectedId s))
  ∧ (∀ v, setSelectedId v s = mkStore (notes s) (theme s) (query s) (sortBy s) v).
Proof.
  split; [|split; [|split]]; intros v.
  - unfold setSortBy. reflexivity.
  - unfold setTheme. reflexivity.
  - unfold setQuery. reflexivity.
  - unfold setSelectedId, setSelectedIdWith. reflexivity.
Qed.

(** C9 (as stated) fails: [setSortBy] and [setTheme] accept a value
    outside their enumeration. *)
Lemma setSortBy_setTheme_accept_any_value :
  let s := initialStore None None in
  sortBy s = "updatedAt"
  ∧ sortBy (setSortBy "priority" s) = "priority"
  ∧ theme s = "light"
  ∧ theme (setTheme "sepia" s) = "sepia".
Proof. repeat split. Qed.

(** ** Searching *)

Lemma prefix_spec q s : String.prefix q s = true ↔ ∃ post, s = q +:+ post.
Proof.
  revert s. induction q as [|a q IH]; intros [|b s]; simpl.
  - split; [intros _; by exists ""|done].
  - split; [intros _; by exists (String b s)|done].
  - split; [done|]. intros [post H]. discriminate H.
  - destruct (Ascii.ascii_dec a b) as [->|Hne].
    + rewrite IH. split; intros [post H]; exists post.
      * rewrite H. reflexivity.
      * by injection H.
    + split; [done|]. intros [post H]. injection H as Hab _. by destruct Hne.
Qed.

Lemma includes_spec s q : includes s q = true ↔ contains s q.
Proof.
  unfold contains. induction s as [|c s IH].
  - destruct q as [|a q]; simpl; split; try done.
    + intros _. by exists "", "".
    + intros (pre & post & H). destruct pre; discriminate H.
  - change (includes (String c s) q)
      with (String.prefix q (String c s) || includes s q).
    rewrite orb_true_iff, prefix_spec, IH. split.
    + intros [[post H]|(pre & post & H)].
      * by exists "", post.
      * exists (String c pre), post. rewrite H. reflexivity.
    + intros (pre & post & H). destruct pre as [|c' pre].
      * left. by exists post.
      * right. exists pre, post. by injection H.
Qed.

Lemma includes_empty s : includes s "" = true.
Proof. by destruct s. Qed.

Section Search.

Variable trim : string → string.
Variable toLowerCase : string → string.

(** What the predicate of the filter decides: the lower-cased title, the
    lower-cased content or some lower-cased tag contains [q]. *)
Lemma matchesQuery_spec q n :
  matchesQuery toLowerCase q n = true ↔
    contains (toLowerCase (title n)) q
    ∨ contains (toLowerCase (content n)) q
    ∨ ∃ t, t ∈ tags n ∧ contains (toLowerCase t) q.
Proof.
  unfold matchesQuery.
  rewrite !orb_true_iff, !includes_spec, existsb_exists.
  setoid_rewrite includes_spec. setoid_rewrite <-list_elem_of_In. tauto.
Qed.

Lemma filter_matches_empty (ns : list Note) :
  filter (λ n, matchesQuery toLowerCase "" n) ns = ns.
Proof.
  induction ns as [|n ns IH]; [done|].
  rewrite filter_cons_True, IH; [done|].
  unfold matchesQuery. by rewrite includes_empty.
Qed.

(** C6: the filtering step keeps, in their order, exactly the notes whose
    lower-cased title, lower-cased content or some lower-cased tag contains
    the trimmed, lower-cased query as a substring; when the query is empty
    after trimming, all notes are kept. *)
Theorem filterNotes_spec query ns :
  let q := toLowerCase (trim query) in
  filterNotes trim toLowerCase query ns
    = filter (λ n, matchesQuery toLowerCase q n) ns
  ∧ (∀ n, n ∈ filterNotes trim toLowerCase query ns ↔
       n ∈ ns ∧ (contains (toLowerCase (title n)) q
                 ∨ contains (toLowerCase (content n)) q
                 ∨ ∃ t, t ∈ tags n ∧ contains (toLowerCase t) q))
  ∧ filterNotes trim toLowerCase query ns `sublist_of` ns
  ∧ (q = "" → filterNotes trim toLowerCase query ns = ns).
Proof.
  intros q.
  assert (filterNotes trim toLowerCase query ns
          = filter (λ n, matchesQuery toLowerCase q n) ns) as Heq.
  { unfold filterNotes. fold q. case_decide as Hq; [|done].
    rewrite Hq. by rewrite filter_matches_empty. }
  split; [exact Heq|]. rewrite Heq.
  split.
  { intros n. rewrite list_elem_of_filter, Is_true_true, matchesQuery_spec. tauto. }
  split; [apply sublist_filter|].
  intros ->. apply filter_matches_empty.
Qed.

End Search.

(** ** Sorting *)

Lemma StronglySorted_mono {A} (R R' : A → A → Prop) l :
  (∀ a b, R a b → R' a b) → StronglySorted R l → StronglySorted R' l.
Proof.
  intros HR. induction 1 as [|a l _ IH Hall]; constructor; [done|].
  eapply Forall_impl; [exact Hall|]. intros b. apply HR.
Qed.

Section Sort.

Context {A : Type} (cmp : A → A → Z).

Lemma sort_insert_Permutation x l : sort_insert cmp x l ≡ₚ x :: l.
Proof.
  induction l as [|y l IH]; simpl; [done|].
  case_decide; [done|]. rewrite IH. apply Permutation_swap.
Qed.

Lemma array_sort_Permutation l : array_sort cmp l ≡ₚ l.
Proof.
  induction l as [|x l IH]; simpl; [done|].
  rewrite sort_insert_Permutation. by constructor.
Qed.

Hypothesis cmp_consistent : consistent cmp.

Lemma cmp_sign a b : 0 < cmp a b ↔ cmp b a < 0.
Proof. apply cmp_consistent. Qed.

Lemma cmp_trans a b c : cmp a b ≤ 0 → cmp b c ≤ 0 → cmp a c ≤ 0.
Proof. apply cmp_consistent. Qed.

Lemma cmp_tie_sym a b : cmp a b = 0 → cmp b a = 0.
Proof.
  intros H. pose proof (cmp_sign a b). pose proof (cmp_sign b a). lia.
Qed.

Lemma sort_insert_sorted x l :
  StronglySorted (λ a b, cmp a b ≤ 0) l →
  StronglySorted (λ a b, cmp a b ≤ 0) (sort_insert cmp x l).
Proof.
  induction 1 as [|y l Hl IH Hy]; simpl.
  - repeat constructor.
  - case_decide as Hxy.
    + constructor; [by constructor|].
      constructor; [done|].
      eapply Forall_impl; [exact Hy|]. intros z Hyz. by eapply cmp_trans.
    + constructor; [done|].
      rewrite sort_insert_Permutation. constructor; [|done].
      pose proof (cmp_sign x y). lia.
Qed.

Lemma array_sort_sorted l :
  StronglySorted (λ a b, cmp a b ≤ 0) (array_sort cmp l).
Proof.
  induction l as [|x l IH]; simpl; [constructor|].
  by apply sort_insert_sorted.
Qed.

(** Stability: the elements that tie with [x] come out in the order they
    went in. *)
Lemma sort_insert_stable x a l :
  filter (λ y, cmp x y = 0) (sort_insert cmp a l)
  = filter (λ y, cmp x y = 0) (a :: l).
Proof.
  induction l as [|y l IH]; simpl; [done|].
  case_decide as Hay; [done|].
  rewrite filter_cons, IH, !filter_cons.
  destruct (decide (cmp x y = 0)) as [Hy|Hy],
    (decide (cmp x a = 0)) as [Ha|Ha]; try done.
  apply cmp_tie_sym in Ha.
  destruct Hay. apply cmp_trans with x; lia.
Qed.

Lemma array_sort_stable x l :
  filter (λ y, cmp x y = 0) (array_sort cmp l) = filter (λ y, cmp x y = 0) l.
Proof.
  induction l as [|a l IH]; simpl; [done|].
  by rewrite sort_insert_stable, !filter_cons, IH.
Qed.

End Sort.

(** ** The heap of arrays *)

Lemma sort_in_place_lookup cmp r h a :
  h !! r = Some a → sort_in_place cmp r h !! r = Some (array_sort cmp a).
Proof. intros H. unfold sort_in_place. by rewrite list_lookup_alter_eq, H. Qed.

Lemma sort_in_place_lookup_ne cmp r r' h :
  r ≠ r' → sort_in_place cmp r h !! r' = h !! r'.
Proof. intros H. unfold sort_in_place. by rewrite list_lookup_alter_ne. Qed.

(** ** The visible notes *)

Section VisibleNotes.

Variable trim : string → string.
Variable toLowerCase : string → string.
Variable localeCompare : string → string → Z.

(** The comparator of notes is consistent: by dates always, by title when
    [localeCompare] is. *)
Lemma compareNotes_consistent k :
  (k = "title" → consistent localeCompare) →
  consistent (compareNotes localeCompare k).
Proof.
  intros Hlc. unfold consistent, compareNotes.
  destruct (decide (k = "title")) as [Hk|Hk].
  - destruct (Hlc Hk) as [Hsign Htrans]. split.
    + intros a b. apply Hsign.
    + intros a b c. apply Htrans.
  - split; intros; case_decide; lia.
Qed.

(** Running [filteredSortedNotes] on a heap that holds the collection at
    [r]: it returns a reference that was free before, at which the heap now
    holds the sorted filtered notes, and every array that was in the heap
    is as it was. *)
Lemma filteredSortedNotes_heap_spec r query sortBy h ns :
  h !! r = Some ns →
  ∃ r' h',
    filteredSortedNotes_heap trim toLowerCase localeCompare r query sortBy h
      = Some (r', h')
    ∧ h !! r' = None
    ∧ h' !! r' = Some (array_sort (compareNotes localeCompare sortBy)
                         (filterNotes trim toLowerCase query ns))
    ∧ (∀ r0 a, h !! r0 = Some a → h' !! r0 = Some a).
Proof.
  intros Hr. unfold filteredSortedNotes_heap, filterNotes, alloc.
  rewrite Hr. simpl. case_decide as Hq.
  - rewrite Hr. simpl. eexists _, _. split; [done|].
    split; [by apply lookup_ge_None|].
    split.
    + apply sort_in_place_lookup, list_lookup_middle. done.
    + intros r0 a Hr0. rewrite sort_in_place_lookup_ne.
      * by apply lookup_app_l_Some.
      * apply lookup_lt_Some in Hr0. lia.
  - rewrite list_lookup_middle by done. simpl. eexists _, _. split; [done|].
    split; [apply lookup_ge_None; rewrite length_app; simpl; lia|].
    split.
    + apply sort_in_place_lookup, list_lookup_middle. done.
    + intros r0 a Hr0. rewrite sort_in_place_lookup_ne.
      * by apply lookup_app_l_Some, lookup_app_l_Some.
      * apply lookup_lt_Some in Hr0. rewrite length_app. simpl. lia.
Qed.

(** Stability read through another description of the ties. *)
Lemma filter_ties_iff (P Q : Note → Prop)
    `{!∀ y, Decision (P y)} `{!∀ y, Decision (Q y)} (l l' : list Note) :
  (∀ y, P y ↔ Q y) → filter P l = filter P l' → filter Q l = filter Q l'.
Proof.
  intros HPQ Heq.
  by rewrite <-(list_filter_iff P Q l), <-(list_filter_iff P Q l').
Qed.

(** C7: the visible notes are a rearrangement of the filtered notes,
    ordered by the sort key: by title, each note not after any later one in
    the order of [localeCompare], when the key is [title] (and
    [localeCompare] is a consistent comparator); by [createdAt], latest
    first, when it is [createdAt]; by [updatedAt], latest first, otherwise.
    Notes that tie (same date, or titles that [localeCompare] does not
    tell apart) keep the order they had in the filtered notes.  On the heap
    the result is an array at a reference that was free before the call,
    and the array of the collection, like every other array, is left as it
    was. *)
Theorem filteredSortedNotes_sorted_stable_fresh s :
  (sortBy s = "title" → consistent localeCompare) →
  let vis := filteredSortedNotes trim toLowerCase localeCompare s in
  let filtered := filterNotes trim toLowerCase (query s) (notes s) in
  vis ≡ₚ filtered
  ∧ (sortBy s = "title" →
       StronglySorted (λ a b, localeCompare (title a) (title b) ≤ 0) vis
       ∧ ∀ x, filter (λ y, localeCompare (title x) (title y) = 0) vis
              = filter (λ y, localeCompare (title x) (title y) = 0) filtered)
  ∧ (sortBy s = "createdAt" →
       StronglySorted (λ a b, createdAt b ≤ createdAt a) vis
       ∧ ∀ k, filter (λ y, createdAt y = k) vis
              = filter (λ y, createdAt y = k) filtered)
  ∧ (sortBy s ≠ "title" → sortBy s ≠ "createdAt" →
       StronglySorted (λ a b, updatedAt b ≤ updatedAt a) vis
       ∧ ∀ k, filter (λ y, updatedAt y = k) vis
              = filter (λ y, updatedAt y = k) filtered)
  ∧ (∀ h r, h !! r = Some (notes s) →
       ∃ r' h',
         filteredSortedNotes_heap trim toLowerCase localeCompare
           r (query s) (sortBy s) h = Some (r', h')
         ∧ h !! r' = None
         ∧ h' !! r' = Some vis
         ∧ h' !! r = Some (notes s)
         ∧ (∀ r0 a, h !! r0 = Some a → h' !! r0 = Some a)).
Proof.
  intros Hlc vis filtered.
  pose proof (compareNotes_consistent (sortBy s) Hlc) as Hcons.
  pose proof (array_sort_sorted _ Hcons filtered) as Hsorted.
  pose proof (array_sort_stable _ Hcons) as Hstable.
  fold vis in Hsorted.
  split; [apply array_sort_Permutation|].
  split.
  { intros Hk. split.
    - eapply StronglySorted_mono; [|exact Hsorted].
      intros a b. unfold compareNotes. by rewrite decide_True.
    - intros x. eapply filter_ties_iff; [|exact (Hstable x filtered)].
      intros y. unfold compareNotes. by rewrite decide_True. }
  split.
  { intros Hk. split.
    - eapply StronglySorted_mono; [|exact Hsorted].
      intros a b. unfold compareNotes. rewrite Hk. simpl. lia.
    - intros k. eapply filter_ties_iff;
        [|exact (Hstable (mkNote "" "" "" [] k k false) filtered)].
      intros y. unfold compareNotes. rewrite Hk. simpl. lia. }
  split.
  { intros Hk1 Hk2. split.
    - eapply StronglySorted_mono; [|exact Hsorted].
      intros a b. unfold compareNotes. rewrite !decide_False by done. lia.
    - intros k. eapply filter_ties_iff;
        [|exact (Hstable (mkNote "" "" "" [] k k false) filtered)].
      intros y. unfold compareNotes. rewrite !decide_False by done.
      simpl. lia. }
  intros h r Hr.
  destruct (filteredSortedNotes_heap_spec r (query s) (sortBy s) h _ Hr)
    as (r' & h' & Hrun & Hfresh & Hnew & Hold).
  exists r', h'. repeat split; try done. by apply Hold.
Qed.

End VisibleNotes.

(** Comparison by character codes is a consistent comparator. *)
Lemma code_compare_sign a b : 0 < code_compare a b ↔ code_compare b a < 0.
Proof.
  unfold code_compare. rewrite (String.compare_antisym b a).
  destruct (String.compare a b); simpl; lia.
Qed.

Lemma code_compare_le a b : code_compare a b ≤ 0 ↔ String.le a b.
Proof.
  unfold code_compare, String.le, String.leb.
  destruct (String.compare a b); simpl; split; (done || lia).
Qed.

Lemma code_compare_consistent : consistent code_compare.
Proof.
  split; [apply code_compare_sign|].
  intros a b c. rewrite !code_compare_le. apply transitivity.
Qed.

Lemma filteredSortedNotes_sorted_stable_fresh_witness :
  let a := mkNote "1-a" "pear" "" [] 1 4 false in
  let b := mkNote "2-b" "apple" "" [] 2 3 false in
  let c := mkNote "3-c" "fig" "" [] 3 5 false in
  let s := mkStore [c; b; a] "light" " " "title" None in
  filteredSortedNotes ascii_trim ascii_toLowerCase code_compare s ≡ₚ [c; b; a]
  ∧ StronglySorted (λ x y, code_compare (title x) (title y) ≤ 0)
      (filteredSortedNotes ascii_trim ascii_toLowerCase code_compare s)
  ∧ filteredSortedNotes ascii_trim ascii_toLowerCase code_compare s = [b; c; a].
Proof.
  intros a b c s.
  destruct (filteredSortedNotes_sorted_stable_fresh
    ascii_trim ascii_toLowerCase code_compare s
    (λ _, code_compare_consistent)) as (Hperm & Htitle & _).
  split; [exact Hperm|]. split; [by apply Htitle|]. reflexivity.
Defined.

(** ** Tags *)


Lemma set_add_NoDup acc x : NoDup acc → NoDup (set_add acc x).
Proof.
  intros Hnd. unfold set_add. case_decide as Hx; [done|].
  apply NoDup_app. split; [done|]. split; [|apply NoDup_singleton].
  intros y Hy Hyx. apply list_elem_of_singleton in Hyx as ->. by apply Hx.
Qed.

Lemma foldl_set_add_NoDup l acc : NoDup acc → NoDup (foldl set_add acc l).
Proof.
  revert acc. induction l as [|x l IH]; intros acc Hnd; simpl; [done|].
  by apply IH, set_add_NoDup.
Qed.


(** On a list without duplicates the set keeps every element where it
    is. *)
Lemma foldl_set_add_id l acc :
  NoDup (acc ++ l) → foldl set_add acc l = acc ++ l.
Proof.
  revert acc. induction l as [|x l IH]; intros acc Hnd; simpl.
  - by rewrite app_nil_r.
  - assert (set_add acc x = acc ++ [x]) as ->.
    { unfold set_add. rewrite decide_False; [done|].
      apply NoDup_app in Hnd as (_ & Hdisj & _).
      intros Hx. apply (Hdisj x Hx), list_elem_of_here. }
    rewrite IH; by rewrite <-app_assoc.
Qed.

Lemma array_from_set_NoDup l : NoDup (array_from_set l).
Proof. apply foldl_set_add_NoDup, NoDup_nil_2. Qed.


Lemma array_from_set_id l : NoDup l → array_from_set l = l.
Proof. intros Hnd. by apply (foldl_set_add_id l []). Qed.

Lemma removeTag_NoDup value t : NoDup value → NoDup (removeTag value t).
Proof. apply NoDup_filter. Qed.

Section Tags.

Variable trim : string → string.

Lemma addTag_Some value text next :
  addTag trim value text = Some next →
  trim text ≠ "" ∧ next = array_from_set (value ++ [trim text]).
Proof. unfold addTag. case_decide; [done|]. by intros [= <-]. Qed.

Lemma addTag_NoDup value text next :
  addTag trim value text = Some next → NoDup next.
Proof. intros [_ ->]%addTag_Some. apply array_from_set_NoDup. Qed.

Lemma map_at_id_Forall (P : Note → Prop) i f l :
  (∀ n, P n → P (f n)) → Forall P l → Forall P (map_at_id i f l).
Proof.
  intros Hf. induction 1 as [|n l Hn _ IH]; [constructor|].
  unfold map_at_id in *. rewrite fmap_cons. constructor; [|done].
  case_decide; auto.
Qed.








End Tags.



(** ** Scenarios *)

Example scenario_create_prepends_and_selects :
  scenario_store = mkStore [noteB; noteA] "light" "" "updatedAt" (Some "21-bbbbbb").
Proof. reflexivity. Qed.

Example scenario_query_is_case_insensitive :
  filteredSortedNotes ascii_trim ascii_toLowerCase code_compare
    (setQuery " ALPHA " scenario_store) = [noteA].
Proof. reflexivity. Qed.

Example scenario_toggle_twice :
  notes (toggleArchive "10-aaaaaa" 40 (toggleArchive "10-aaaaaa" 30 scenario_store))
  = [noteB; mkNote "10-aaaaaa" "Alpha" "" [] 10 40 false].
Proof. reflexivity. Qed.

Example scenario_delete_selected :
  deleteNote "21-bbbbbb" scenario_store
  = mkStore [noteA] "light" "" "updatedAt" None.
Proof. reflexivity. Qed.

Example scenario_sort_keys :
  let s := updateNote "10-aaaaaa" (tagsPatch ["x"]) 50 scenario_store in
  (id <$> filteredSortedNotes ascii_trim ascii_toLowerCase code_compare s)
    = ["10-aaaaaa"; "21-bbbbbb"]
  ∧ (id <$> filteredSortedNotes ascii_trim ascii_toLowerCase code_compare
       (setSortBy "createdAt" s)) = ["21-bbbbbb"; "10-aaaaaa"]
  ∧ (id <$> filteredSortedNotes ascii_trim ascii_toLowerCase code_compare
       (setSortBy "title" s)) = ["10-aaaaaa"; "21-bbbbbb"]
  ∧ (id <$> filteredSortedNotes ascii_trim ascii_toLowerCase code_compare
       (setSortBy "priority" s)) = ["10-aaaaaa"; "21-bbbbbb"].
Proof. repeat split. Qed.

Example scenario_heap_copy :
  filteredSortedNotes_heap ascii_trim ascii_toLowerCase code_compare
    0%nat "" "title" [[noteB; noteA]]
  = Some (1%nat, [[noteB; noteA]; [noteA; noteB]]).
Proof. reflexivity. Qed.

Example scenario_genId :
  genId 1700000000000 "k3j9zq" = "1700000000000-k3j9zq"
  ∧ genId 0 "" = "0-".
Proof. split; reflexivity. Qed.

Example scenario_array_from_set :
  array_from_set ["b"; "a"; "b"; "c"; "a"] = ["b"; "a"; "c"].
Proof. reflexivity. Qed.

(** * Further properties of the store *)

(** ** Archiving twice, deleting twice, creating and deleting *)

(** X1: archiving a note twice gives every note back its [archived] flag;
    the notes with the id keep all their fields but [updatedAt], which is
    the second clock reading, and all other notes are as they were. *)
Theorem toggleArchive_twice i t1 t2 s :
  length (notes (toggleArchive i t2 (toggleArchive i t1 s))) = length (notes s)
  ∧ ∀ k n, notes s !! k = Some n →
      notes (toggleArchive i t2 (toggleArchive i t1 s)) !! k
      = Some (if decide (id n = i)
              then mkNote (id n) (title n) (content n) (tags n)
                     (createdAt n) t2 (archived n)
              else n).
Proof.
  rewrite !toggleArchive_notes. split; [by rewrite !map_at_id_length|].
  intros k n Hk. case_decide as Hid.
  - rewrite (map_at_id_lookup_hit i (λ m, flipArchived m t2) _ k
               (flipArchived n t1));
      [|by apply (map_at_id_lookup_hit i (λ m, flipArchived m t1))|done].
    unfold flipArchived. simpl. by rewrite negb_involutive.
  - rewrite (map_at_id_lookup_miss i (λ m, flipArchived m t2) _ k n);
      [done| |done].
    by apply map_at_id_lookup_miss.
Qed.

Lemma deleteNote_no_id i s : i ∉ id <$> notes (deleteNote i s).
Proof.
  intros (n & Hid & Hn)%list_elem_of_fmap. simpl in Hn.
  apply list_elem_of_filter in Hn as [Hne _]. by apply Hne.
Qed.

(** X2: after [deleteNote] no note has the id and the selection is not
    the id; deleting the same id again changes nothing. *)
Theorem deleteNote_idempotent i s :
  (i ∉ id <$> notes (deleteNote i s))
  ∧ (selectedId (deleteNote i s) ≠ Some i)
  ∧ deleteNote i (deleteNote i s) = deleteNote i s.
Proof.
  split; [apply deleteNote_no_id|].
  assert (selectedId (deleteNote i s) ≠ Some i) as Hsel.
  { simpl. case_decide; [done|]. done. }
  split; [exact Hsel|].
  apply store_eq; try done.
  - simpl. rewrite filter_id_absent; [done|].
    apply Forall_forall. intros n Hn. by apply list_elem_of_filter in Hn as [? _].
  - simpl in *. by rewrite decide_False.
Qed.

Section CreateDelete.

Variable trim : string → string.

(** X3: deleting the note that [createNote] has just made removes it and
    every older note that has the same id, and leaves nothing selected;
    when the new id was not in use, the collection is the one before the
    creation. *)
Theorem createNote_then_deleteNote data now ms rnd s :
  let created := createNote trim data now ms rnd s in
  let s' := deleteNote (id created.1) created.2 in
  notes s' = filter (λ n, id n ≠ genId ms rnd) (notes s)
  ∧ selectedId s' = None
  ∧ theme s' = theme s ∧ query s' = query s ∧ sortBy s' = sortBy s
  ∧ (genId ms rnd ∉ id <$> notes s → notes s' = notes s).
Proof.
  intros created s'. unfold s', created. simpl.
  rewrite filter_cons_False by (intros H; by apply H).
  rewrite decide_True by done. repeat split; try done.
  intros Hfresh. apply filter_id_absent, Forall_forall.
  intros n Hn Hid. apply Hfresh. rewrite <-Hid. by apply list_elem_of_fmap_2.
Qed.

End CreateDelete.

(** ** The sorted view is determined *)

Section SortUnique.

Context {A : Type} (cmp : A → A → Z).
Hypothesis cmp_consistent : consistent cmp.

Lemma cmp_refl a : cmp a a = 0.
Proof. pose proof (cmp_sign cmp cmp_consistent a a). lia. Qed.

Lemma cmp_le_antisym a b : cmp a b ≤ 0 → cmp b a ≤ 0 → cmp a b = 0.
Proof. intros Hab Hba. pose proof (cmp_sign cmp cmp_consistent b a). lia. Qed.

(** Two arrangements of the same elements that are both in order and
    keep the same order among ties are one list. *)
Lemma stable_sorted_unique (l1 l2 : list A) :
  l1 ≡ₚ l2 →
  StronglySorted (λ a b, cmp a b ≤ 0) l1 →
  StronglySorted (λ a b, cmp a b ≤ 0) l2 →
  (∀ x, filter (λ y, cmp x y = 0) l1 = filter (λ y, cmp x y = 0) l2) →
  l1 = l2.
Proof.
  revert l2. induction l1 as [|a l1 IH]; intros l2 Hperm Hs1 Hs2 Hties.
  { by apply Permutation_nil_l in Hperm. }
  destruct l2 as [|b l2]; [by apply Permutation_nil_r in Hperm|].
  apply StronglySorted_inv in Hs1 as [Hs1 Ha].
  apply StronglySorted_inv in Hs2 as [Hs2 Hb].
  assert (cmp a b = 0) as Hab.
  { apply cmp_le_antisym.
    - assert (b ∈ a :: l1) as Hin by (rewrite Hperm; apply list_elem_of_here).
      apply elem_of_cons in Hin as [Heq|Hin].
      + rewrite Heq, cmp_refl. lia.
      + by eapply Forall_forall in Ha.
    - assert (a ∈ b :: l2) as Hin by (rewrite <-Hperm; apply list_elem_of_here).
      apply elem_of_cons in Hin as [Heq|Hin].
      + rewrite Heq, cmp_refl. lia.
      + by eapply Forall_forall in Hb. }
  assert (a = b) as <-.
  { specialize (Hties a).
    rewrite !filter_cons, !decide_True in Hties by (done || apply cmp_refl).
    by injection Hties. }
  f_equal. apply IH; [by apply Permutation_cons_inv in Hperm|done..|].
  intros x. specialize (Hties x). rewrite !filter_cons in Hties.
  case_decide; [by injection Hties|done].
Qed.

(** An array already in order is left as it is. *)
Lemma array_sort_sorted_id (l : list A) :
  StronglySorted (λ a b, cmp a b ≤ 0) l → array_sort cmp l = l.
Proof.
  intros Hl. apply stable_sorted_unique.
  - apply array_sort_Permutation.
  - by apply array_sort_sorted.
  - done.
  - intros x. by apply array_sort_stable.
Qed.

End SortUnique.

Section ViewFacts.

Variable trim : string → string.
Variable toLowerCase : string → string.
Variable localeCompare : string → string → Z.

Lemma filterNotes_sublist qry (ns : list Note) :
  filterNotes trim toLowerCase qry ns `sublist_of` ns.
Proof. unfold filterNotes. case_decide; [done|apply sublist_filter]. Qed.

Lemma filteredSortedNotes_elem s n :
  n ∈ filteredSortedNotes trim toLowerCase localeCompare s → n ∈ notes s.
Proof.
  unfold filteredSortedNotes. rewrite array_sort_Permutation.
  intros Hn. eapply elem_of_sublist; [exact Hn|apply filterNotes_sublist].
Qed.

(** X4: the view shows notes of the collection only, no more of them
    than there are, each id once when the ids of the collection are
    unique, and all of them when the query is blank. *)
Theorem filteredSortedNotes_within_collection s :
  let vis := filteredSortedNotes trim toLowerCase localeCompare s in
  (∀ n, n ∈ vis → n ∈ notes s)
  ∧ (length vis ≤ length (notes s))%nat
  ∧ (NoDup (id <$> notes s) → NoDup (id <$> vis))
  ∧ (toLowerCase (trim (query s)) = "" → vis ≡ₚ notes s).
Proof.
  intros vis.
  assert (vis ≡ₚ filterNotes trim toLowerCase (query s) (notes s)) as Hperm
    by apply array_sort_Permutation.
  split; [apply filteredSortedNotes_elem|].
  split.
  { rewrite Hperm. apply sublist_length, filterNotes_sublist. }
  split.
  { intros Hnd. rewrite Hperm.
    apply (sublist_NoDup _ (id <$> notes s)); [exact Hnd|].
    apply fmap_sublist, filterNotes_sublist. }
  intros Hq. rewrite Hperm. unfold filterNotes. by rewrite decide_True.
Qed.

(** X5: the view does not depend on how the runtime sorts: every
    arrangement of the filtered notes that is in order for the comparator
    and keeps tied notes in the order they had is the view.  (For the
    title key, [localeCompare] is taken to be a consistent comparator.) *)
Theorem filteredSortedNotes_unique s (l : list Note) :
  (sortBy s = "title" → consistent localeCompare) →
  l ≡ₚ filterNotes trim toLowerCase (query s) (notes s) →
  StronglySorted (λ a b, compareNotes localeCompare (sortBy s) a b ≤ 0) l →
  (∀ x, filter (λ y, compareNotes localeCompare (sortBy s) x y = 0) l
        = filter (λ y, compareNotes localeCompare (sortBy s) x y = 0)
            (filterNotes trim toLowerCase (query s) (notes s))) →
  l = filteredSortedNotes trim toLowerCase localeCompare s.
Proof.
  intros Hlc Hperm Hsorted Hties.
  pose proof (compareNotes_consistent localeCompare (sortBy s) Hlc) as Hcons.
  apply (stable_sorted_unique _ Hcons); [|done| |].
  - rewrite Hperm. symmetry. apply array_sort_Permutation.
  - by apply array_sort_sorted.
  - intros x. rewrite Hties. symmetry. by apply array_sort_stable.
Qed.

(** X6: when the collection is already in the order of the sort key and
    the query is blank, the view is the collection as it stands. *)
Theorem filteredSortedNotes_ordered_collection s :
  (sortBy s = "title" → consistent localeCompare) →
  toLowerCase (trim (query s)) = "" →
  StronglySorted (λ a b, compareNotes localeCompare (sortBy s) a b ≤ 0) (notes s) →
  filteredSortedNotes trim toLowerCase localeCompare s = notes s.
Proof.
  intros Hlc Hq Hsorted. unfold filteredSortedNotes, filterNotes.
  rewrite decide_True by done.
  apply array_sort_sorted_id; [|done].
  by apply compareNotes_consistent.
Qed.

End ViewFacts.

Lemma filteredSortedNotes_unique_witness :
  let a := mkNote "1-a" "pear" "" [] 1 5 false in
  let b := mkNote "2-b" "apple" "" [] 2 3 false in
  let s := mkStore [b; a] "light" "" "updatedAt" None in
  [a; b] = filteredSortedNotes ascii_trim ascii_toLowerCase code_compare s.
Proof.
  intros a b s.
  apply (filteredSortedNotes_unique ascii_trim ascii_toLowerCase code_compare s).
  - discriminate.
  - apply Permutation_swap.
  - repeat constructor; unfold compareNotes; simpl; lia.
  - intros x. change (filterNotes ascii_trim ascii_toLowerCase (query s) (notes s))
      with [b; a].
    rewrite !filter_cons, !filter_nil. unfold compareNotes. simpl.
    repeat case_decide; (done || lia).
Defined.

Lemma filteredSortedNotes_ordered_collection_witness :
  let a := mkNote "1-a" "pear" "" [] 1 5 false in
  let b := mkNote "2-b" "apple" "" [] 2 5 false in
  let s := mkStore [b; a] "light" "  " "updatedAt" None in
  filteredSortedNotes ascii_trim ascii_toLowerCase code_compare s = [b; a].
Proof.
  intros a b s.
  apply (filteredSortedNotes_ordered_collection
           ascii_trim ascii_toLowerCase code_compare s).
  - discriminate.
  - reflexivity.
  - repeat constructor; unfold compareNotes; simpl; lia.
Defined.

(** ** Narrowing the query *)

Lemma string_app_assoc (a b c : string) : (a +:+ b) +:+ c = a +:+ b +:+ c.
Proof.
  induction a as [|x a IH]; [done|].
  change (String x ((a +:+ b) +:+ c) = String x (a +:+ b +:+ c)).
  by rewrite IH.
Qed.

Lemma contains_trans s q q' : contains s q → contains q q' → contains s q'.
Proof.
  intros (pre & post & ->) (pre' & post' & ->).
  exists (pre +:+ pre'), (post' +:+ post).
  by rewrite !string_app_assoc.
Qed.

Section Narrowing.

Variable trim : string → string.
Variable toLowerCase : string → string.

Lemma matchesQuery_narrow q q' n :
  contains q q' →
  matchesQuery toLowerCase q n = true → matchesQuery toLowerCase q' n = true.
Proof.
  intros Hq. rewrite !(matchesQuery_spec trim).
  intros [H|[H|(t & Ht & H)]].
  - left. exact (contains_trans _ _ _ H Hq).
  - right; left. exact (contains_trans _ _ _ H Hq).
  - right; right. exists t. split; [done|]. exact (contains_trans _ _ _ H Hq).
Qed.

(** X7: a query whose trimmed, lower-cased text contains that of
    another query shows no note that the other query hides: typing more
    into the search box never brings a note back. *)
Theorem filterNotes_narrow query1 query2 ns n :
  contains (toLowerCase (trim query1)) (toLowerCase (trim query2)) →
  n ∈ filterNotes trim toLowerCase query1 ns →
  n ∈ filterNotes trim toLowerCase query2 ns.
Proof.
  intros Hq. unfold filterNotes.
  destruct (decide (toLowerCase (trim query2) = "")) as [|Hq2].
  { case_decide; [done|]. by intros [_ ?]%list_elem_of_filter. }
  rewrite decide_False.
  - rewrite !list_elem_of_filter, !Is_true_true. intros [Hm Hn].
    split; [|done]. by eapply matchesQuery_narrow.
  - intros Hq1. rewrite Hq1 in Hq. destruct Hq as (pre & post & Hq).
    destruct pre; [|discriminate Hq].
    destruct (toLowerCase (trim query2)); [done|discriminate Hq].
Qed.

End Narrowing.

Lemma filterNotes_narrow_witness :
  let a := mkNote "1-a" "Shopping list" "" [] 1 1 false in
  let b := mkNote "2-b" "Shoes" "" [] 2 2 false in
  a ∈ filterNotes ascii_trim ascii_toLowerCase " sho" [b; a].
Proof.
  intros a b.
  apply (filterNotes_narrow ascii_trim ascii_toLowerCase "Shop" " sho" [b; a] a).
  - by exists "", "p".
  - change (a ∈ [a]). apply list_elem_of_here.
Defined.

(** ** Editing tags *)

Lemma removeTag_absent value t : t ∉ value → removeTag value t = value.
Proof.
  intros Ht. unfold removeTag. induction value as [|x value IH]; [done|].
  apply not_elem_of_cons in Ht as [Hne Ht].
  rewrite filter_cons_True by done. by rewrite IH.
Qed.

Lemma removeTag_app_last value t : t ∉ value → removeTag (value ++ [t]) t = value.
Proof.
  intros Ht. unfold removeTag. rewrite filter_app.
  fold (removeTag value t). rewrite removeTag_absent by done.
  rewrite filter_cons_False by (intros H; by apply H).
  by rewrite filter_nil, app_nil_r.
Qed.

Lemma array_from_set_snoc l x :
  array_from_set (l ++ [x]) = set_add (array_from_set l) x.
Proof. unfold array_from_set. by rewrite foldl_app. Qed.

Section TagEditing.

Variable trim : string → string.

(** X8: [addTag] with a blank text does not call [onChange]; with a tag
    the list already has (and no duplicates in the list) it hands the list
    on as it is; with a new tag it appends the trimmed tag, and
    [removeTag] of that tag gives the list back. *)
Theorem addTag_removeTag value text :
  (trim text = "" → addTag trim value text = None)
  ∧ (trim text ≠ "" → NoDup value → trim text ∈ value →
       addTag trim value text = Some value)
  ∧ (trim text ≠ "" → NoDup value → trim text ∉ value →
       ∃ next, addTag trim value text = Some next
               ∧ next = value ++ [trim text]
               ∧ removeTag next (trim text) = value).
Proof.
  unfold addTag. split; [intros Hb; by rewrite decide_True|].
  split.
  - intros Hne Hnd Hin. rewrite decide_False by done. f_equal.
    rewrite array_from_set_snoc, array_from_set_id by done.
    unfold set_add. by rewrite decide_True.
  - intros Hne Hnd Hnew. rewrite decide_False by done.
    eexists. split; [done|].
    rewrite array_from_set_snoc, array_from_set_id by done.
    unfold set_add. rewrite decide_False by done.
    split; [done|]. by apply removeTag_app_last.
Qed.

End TagEditing.

(** ** The theme button *)

(** X9: the theme button always leaves the theme [light] or [dark]: from
    any theme but [light] it goes to [light]; on [light] and [dark] two
    clicks give the store back; nothing but the theme changes. *)
Theorem onToggle_theme s :
  (theme (onToggle s) = "light" ∨ theme (onToggle s) = "dark")
  ∧ (theme s ≠ "light" → theme (onToggle s) = "light")
  ∧ (theme s = "light" ∨ theme s = "dark" → onToggle (onToggle s) = s)
  ∧ notes (onToggle s) = notes s ∧ query (onToggle s) = query s
  ∧ sortBy (onToggle s) = sortBy s ∧ selectedId (onToggle s) = selectedId s.
Proof.
  unfold onToggle. simpl.
  split; [case_decide; auto|].
  split; [intros Hne; by rewrite decide_False|].
  split; [|done].
  intros Hth. apply store_eq; try done. simpl.
  destruct Hth as [Hth|Hth]; rewrite Hth; reflexivity.
Qed.

(** ** The preview of a list item *)

Lemma substring_prefix m s :
  ∃ rest, s = String.substring 0 m s +:+ rest
          ∧ String.length (String.substring 0 m s) = (m `min` String.length s)%nat.
Proof.
  revert s. induction m as [|m IH]; intros [|c s]; simpl.
  - by exists "".
  - by exists (String c s).
  - by exists "".
  - destruct (IH s) as (rest & Hs & Hlen). exists rest.
    split; [|by rewrite Hlen].
    change (String c s = String c (String.substring 0 m s +:+ rest)).
    by rewrite <-Hs.
Qed.

(** X10: the preview of a note with an empty content is "No content";
    otherwise it is the first 80 characters of the content: a non-empty
    prefix of it, of at most 80 characters, and the whole content when
    that has no more than 80. *)
Theorem preview_spec n :
  (content n = "" → preview n = "No content")
  ∧ (content n ≠ "" →
       preview n ≠ ""
       ∧ (String.length (preview n) ≤ 80)%nat
       ∧ (∃ rest, content n = preview n +:+ rest)
       ∧ ((String.length (content n) ≤ 80)%nat → preview n = content n)).
Proof.
  unfold preview.
  destruct (substring_prefix 80 (content n)) as (rest & Hc & Hlen).
  split.
  - intros Hempty. rewrite Hempty. reflexivity.
  - intros Hne.
    assert (String.substring 0 80 (content n) ≠ "") as Hp.
    { intros Hp. rewrite Hp in Hlen.
      destruct (content n); [done|]. simpl in Hlen. lia. }
    rewrite decide_False by done.
    split; [done|]. split; [lia|]. split; [by exists rest|].
    intros Hshort. rewrite Hc at 2.
    assert (rest = "") as ->.
    { apply (f_equal String.length) in Hc.
      assert (∀ a b, String.length (a +:+ b)
                     = (String.length a + String.length b)%nat) as Happ.
      { intros a b. induction a as [|x a IH]; [done|].
        change (S (String.length (a +:+ b))
                = S (String.length a + String.length b)). by rewrite IH. }
      rewrite Happ in Hc. destruct rest; [done|]. simpl in Hc. lia. }
    clear. induction (String.substring 0 80 (content n)) as [|x a IH]; [done|].
    change (String x a = String x (a +:+ "")). by rewrite <-IH.
Qed.

(** ** Reloading *)

Section Reload.

Variable stringify : list Note → string.
Variable parse : string → option (list Note).

Lemma boot_unreadable st :
  boot parse false st = mkStore [] "light" "" "updatedAt" None.
Proof. done. Qed.

(** X11: when both writes go through and [JSON.parse] reads back what
    [JSON.stringify] wrote, mounting the provider on the storage brings
    back the notes and the theme (an empty theme comes back as [light]);
    the query, the sort key and the selection are not kept.  A write that
    fails leaves its key as it was, so on a storage that was empty the
    notes come back empty and the theme [light]; a storage that cannot be
    read gives the empty store. *)
Theorem persist_then_boot s st :
  parse (stringify (notes s)) = Some (notes s) →
  stringify (notes s) ≠ "" →
  boot parse true (persist stringify true true s st)
    = mkStore (notes s) (if decide (theme s = "") then "light" else theme s)
        "" "updatedAt" None
  ∧ (∀ okNotes okTheme,
       boot parse true (persist stringify okNotes okTheme s ∅)
       = mkStore (if okNotes then notes s else [])
           (if okTheme then if decide (theme s = "") then "light" else theme s
            else "light")
           "" "updatedAt" None)
  ∧ (∀ okNotes okTheme,
       boot parse false (persist stringify okNotes okTheme s st)
       = mkStore [] "light" "" "updatedAt" None).
Proof.
  intros Hround Hne.
  assert (NOTES_KEY ≠ THEME_KEY) as Hkeys by done.
  split; [|split; [|done]].
  - unfold boot, persist, initialStore, savedNotes.
    rewrite lookup_insert_ne, !lookup_insert_eq by done.
    rewrite decide_False, Hround by done. reflexivity.
  - intros [] []; unfold boot, persist, initialStore, savedNotes.
    + rewrite lookup_insert_ne, !lookup_insert_eq by done.
      rewrite decide_False, Hround by done. reflexivity.
    + rewrite lookup_insert_eq, lookup_insert_ne, lookup_empty by done.
      rewrite decide_False, Hround by done. reflexivity.
    + rewrite lookup_insert_ne, lookup_insert_eq, lookup_empty by done.
      reflexivity.
    + rewrite !lookup_empty. reflexivity.
Qed.

End Reload.

Lemma persist_then_boot_witness :
  let a := mkNote "1-a" "Milk" "two litres" ["shop"] 1 2 true in
  let stringify := λ l : list Note, "[" +:+ String.concat "," (id <$> l) +:+ "]" in
  let parse := λ raw : string,
    if decide (raw = "[1-a]") then Some [a]
    else if decide (raw = "[]") then Some [] else None in
  let s := mkStore [a] "dark" "milk" "title" (Some "1-a") in
  boot parse true (persist stringify true true s ∅)
  = mkStore [a] "dark" "" "updatedAt" None.
Proof.
  intros a stringify parse s.
  destruct (persist_then_boot stringify parse s ∅) as [Hboot _];
    [reflexivity|discriminate|exact Hboot].
Defined.

(** ** The note open in the editor *)

Lemma selectedNote_Some s note :
  selectedNote s = Some note → note ∈ notes s ∧ selectedId s = Some (id note).
Proof.
  unfold selectedNote. intros [Hin Hsel]%find_some.
  split; [by apply list_elem_of_In|].
  by apply bool_decide_eq_true_1 in Hsel.
Qed.

Lemma selectedNote_unselected s : selectedId s = None → selectedNote s = None.
Proof.
  intros Hsel. unfold selectedNote. rewrite Hsel.
  induction (notes s) as [|n l IH]; [done|]. exact IH.
Qed.

Lemma selectedNote_found s i :
  selectedId s = Some i → i ∈ id <$> notes s →
  ∃ note, selectedNote s = Some note ∧ id note = i.
Proof.
  intros Hsel (n & -> & Hn)%list_elem_of_fmap.
  destruct (selectedNote s) as [note|] eqn:Hfind.
  - exists note. split; [done|].
    apply selectedNote_Some in Hfind as [_ Hid]. congruence.
  - unfold selectedNote in Hfind.
    apply list_elem_of_In in Hn.
    pose proof (find_none _ _ Hfind n Hn) as Hfalse.
    apply bool_decide_eq_false_1 in Hfalse. by destruct Hfalse.
Qed.

Lemma unique_id_eq (l : list Note) n n' :
  NoDup (id <$> l) → n ∈ l → n' ∈ l → id n' = id n → n' = n.
Proof.
  intros Hnd Hn Hn' Hid.
  destruct (unique_id_split l n Hnd Hn) as (pre & post & -> & Hrest).
  apply Forall_app in Hrest as [Hpre Hpost].
  apply elem_of_app in Hn' as [Hn'|Hn'].
  - rewrite Forall_forall in Hpre. by destruct (Hpre n' Hn').
  - apply elem_of_cons in Hn' as [?|Hn']; [done|].
    rewrite Forall_forall in Hpost. by destruct (Hpost n' Hn').
Qed.

Section Editor.

Variable trim : string → string.
Variable toLowerCase : string → string.
Variable localeCompare : string → string → Z.

(** X12: a click on an item of the list opens in the editor a note with
    the id of that item: the first of the collection with that id, which
    is the clicked note itself when the ids of the collection are unique.
    After "+ New" the editor shows the new note, and after its delete
    button it shows none. *)
Theorem editor_follows_selection s :
  (∀ k n, filteredSortedNotes trim toLowerCase localeCompare s !! k = Some n →
     ∃ n', selectedNote (onItem trim toLowerCase localeCompare k s) = Some n'
           ∧ id n' = id n
           ∧ (NoDup (id <$> notes s) → n' = n))
  ∧ (∀ now ms rnd,
       selectedNote (onNew trim now ms rnd s)
       = Some (createNote trim (mkNoteData (Some "New note") None None)
                 now ms rnd s).1)
  ∧ selectedNote (onDelete s) = None.
Proof.
  split; [|split].
  - intros k n Hk. unfold onItem. rewrite Hk.
    assert (n ∈ notes s) as Hn.
    { eapply filteredSortedNotes_elem, list_elem_of_lookup_2, Hk. }
    destruct (selectedNote_found (setSelectedId (Some (id n)) s) (id n))
      as (n' & Hsel & Hid); [done|by apply list_elem_of_fmap_2|].
    exists n'. split; [done|]. split; [done|].
    intros Hnd. apply selectedNote_Some in Hsel as [Hn' _].
    by apply (unique_id_eq (notes s)).
  - intros now ms rnd. unfold onNew, selectedNote. simpl.
    by rewrite bool_decide_eq_true_2.
  - unfold onDelete. destruct (selectedNote s) as [note|] eqn:Hsel; [|done].
    apply selectedNote_unselected. simpl.
    apply selectedNote_Some in Hsel as [_ ->]. by rewrite decide_True.
Qed.

End Editor.

(** ** Sessions: what holds after any sequence of events *)

Lemma map_at_id_fmap {B} (g : Note → B) i f l :
  (∀ n, g (f n) = g n) → g <$> map_at_id i f l = g <$> l.
Proof.
  intros Hg. unfold map_at_id. rewrite <-list_fmap_compose.
  apply list_fmap_ext. intros k n _. simpl. by case_decide.
Qed.

Lemma edited_ids s now s' : edited s now s' → id <$> notes s' = id <$> notes s.
Proof.
  intros [|i u Hid _ _|i]; [done|..].
  - rewrite updateNote_notes. apply map_at_id_fmap.
    intros n. simpl. by rewrite Hid.
  - rewrite toggleArchive_notes. by apply map_at_id_fmap.
Qed.


Lemma edited_frame s now s' :
  edited s now s' →
  theme s' = theme s ∧ query s' = query s
  ∧ sortBy s' = sortBy s ∧ selectedId s' = selectedId s.
Proof. by intros [|i u _ _ _|i]. Qed.

Lemma edited_tags_unique s now s' :
  edited s now s' → tags_unique s → tags_unique s'.
Proof.
  intros [|i u _ _ Htags|i] Hs; [done|..].
  - unfold tags_unique. rewrite updateNote_notes.
    apply map_at_id_Forall; [|done].
    intros n Hn. simpl. specialize (Htags Hs). by destruct (upd_tags u).
  - unfold tags_unique. rewrite toggleArchive_notes.
    by apply map_at_id_Forall.
Qed.

Lemma edited_dates_ordered s now s' t :
  edited s now s' → t ≤ now → dates_ordered t s → dates_ordered now s'.
Proof.
  intros Hed Ht Hs.
  assert (dates_ordered now s) as Hweak.
  { unfold dates_ordered in *. eapply Forall_impl; [exact Hs|].
    simpl. intros n. lia. }
  destruct Hed as [|i u _ Hc _|i]; [done|..].
  - unfold dates_ordered. rewrite updateNote_notes.
    unfold map_at_id. apply Forall_fmap.
    eapply Forall_impl; [exact Hs|]. intros n [Hcu Hut]. simpl.
    case_decide; simpl; [rewrite Hc; simpl|]; lia.
  - unfold dates_ordered. rewrite toggleArchive_notes.
    unfold map_at_id. apply Forall_fmap.
    eapply Forall_impl; [exact Hs|]. intros n [Hcu Hut]. simpl.
    case_decide; simpl; lia.
Qed.

Lemma edited_selection_valid s now s' :
  edited s now s' → selection_valid s → selection_valid s'.
Proof.
  intros Hed Hs i. rewrite (edited_ids _ _ _ Hed).
  destruct (edited_frame _ _ _ Hed) as (_ & _ & _ & ->). apply Hs.
Qed.

Section Sessions.

Variable trim : string → string.
Variable toLowerCase : string → string.
Variable localeCompare : string → string → Z.

Abbreviation handle := (handle trim toLowerCase localeCompare).
Abbreviation session := (session trim toLowerCase localeCompare).

(** The five edits of the editor are edits in the sense of [edited]. *)
Lemma handle_edit s e now :
  match e with
  | EditTitle _ _ | EditContent _ _ | ClickArchive _
  | AddTag _ _ | RemoveTag _ _ => True
  | _ => False
  end →
  event_time e = Some now → edited s now (handle s e).
Proof.
  destruct e as [| | | | | |v t|v t|t| |text t|tg t]; try done;
    intros _ [= ->]; simpl.
  - unfold onTitle. destruct (selectedNote s); [|constructor].
    by constructor.
  - unfold onContent. destruct (selectedNote s); [|constructor].
    by constructor.
  - unfold onArchive. destruct (selectedNote s); constructor.
  - unfold editorAddTag. destruct (selectedNote s) as [note|]; [|constructor].
    destruct (addTag trim (tags note) text) as [next|] eqn:Hadd; [|constructor].
    constructor; [done..|]. intros _. simpl. by eapply addTag_NoDup.
  - unfold onRemoveTag. destruct (selectedNote s) as [note|] eqn:Hsel; [|constructor].
    case_decide; [|constructor].
    unfold editorRemoveTag. rewrite Hsel.
    constructor; [done..|]. intros Hs. simpl. apply removeTag_NoDup.
    apply selectedNote_Some in Hsel as [Hin _].
    unfold tags_unique in Hs. by eapply Forall_forall in Hs.
Qed.

Lemma handle_selection_valid s e : selection_valid s → selection_valid (handle s e).
Proof.
  intros Hs.
  destruct e as [now ms rnd|[]| |v|o|k|v t|v t|t| |text t|tg t]; simpl; try done.
  - intros i [= <-]. simpl. apply list_elem_of_here.
  - unfold onItem.
    destruct (filteredSortedNotes _ _ _ s !! k) as [n|] eqn:Hk; [|done].
    intros i [= <-]. simpl. apply list_elem_of_fmap_2.
    eapply filteredSortedNotes_elem, list_elem_of_lookup_2, Hk.
  - by eapply edited_selection_valid, Hs; apply (handle_edit s (EditTitle v t)).
  - by eapply edited_selection_valid, Hs; apply (handle_edit s (EditContent v t)).
  - by eapply edited_selection_valid, Hs; apply (handle_edit s (ClickArchive t)).
  - unfold onDelete. destruct (selectedNote s) as [note|] eqn:Hsel; [|done].
    apply selectedNote_Some in Hsel as [_ Hsel].
    intros i. simpl. rewrite Hsel. by rewrite decide_True.
  - by eapply edited_selection_valid, Hs; apply (handle_edit s (AddTag text t)).
  - by eapply edited_selection_valid, Hs; apply (handle_edit s (RemoveTag tg t)).
Qed.

Lemma deleteNote_Forall (P : Note → Prop) i s :
  Forall P (notes s) → Forall P (notes (deleteNote i s)).
Proof.
  intros Hs. simpl. apply Forall_forall. intros n Hn.
  apply list_elem_of_filter in Hn as [_ Hn]. by eapply Forall_forall in Hs.
Qed.

Lemma handle_tags_unique s e : tags_unique s → tags_unique (handle s e).
Proof.
  intros Hs.
  destruct e as [now ms rnd|[]| |v|o|k|v t|v t|t| |text t|tg t]; simpl; try done.
  - constructor; [constructor|done].
  - constructor.
  - unfold onItem. by destruct (filteredSortedNotes _ _ _ s !! k).
  - by eapply edited_tags_unique, Hs; apply (handle_edit s (EditTitle v t)).
  - by eapply edited_tags_unique, Hs; apply (handle_edit s (EditContent v t)).
  - by eapply edited_tags_unique, Hs; apply (handle_edit s (ClickArchive t)).
  - unfold onDelete. destruct (selectedNote s); [|done].
    by apply deleteNote_Forall.
  - by eapply edited_tags_unique, Hs; apply (handle_edit s (AddTag text t)).
  - by eapply edited_tags_unique, Hs; apply (handle_edit s (RemoveTag tg t)).
Qed.

Lemma handle_sortBy_theme_valid s e :
  (sortBy_valid s → sortBy_valid (handle s e))
  ∧ (theme_valid s → theme_valid (handle s e)).
Proof.
  assert (∀ s', sortBy s' = sortBy s → theme s' = theme s →
            (sortBy_valid s → sortBy_valid s') ∧ (theme_valid s → theme_valid s'))
    as Hsame.
  { intros s' Hsort Hth. unfold sortBy_valid, theme_valid.
    by rewrite Hsort, Hth. }
  destruct e as [now ms rnd|[]| |v|o|k|v t|v t|t| |text t|tg t]; simpl;
    try (by apply Hsame).
  - split; [done|]. intros _. unfold theme_valid, onToggle. simpl.
    case_decide; auto.
  - split; [|done]. intros _. by exists o.
  - apply Hsame; unfold onItem; by destruct (filteredSortedNotes _ _ _ s !! k).
  - apply Hsame; by apply (edited_frame s t), (handle_edit s (EditTitle v t)).
  - apply Hsame; by apply (edited_frame s t), (handle_edit s (EditContent v t)).
  - apply Hsame; by apply (edited_frame s t), (handle_edit s (ClickArchive t)).
  - apply Hsame; unfold onDelete; by destruct (selectedNote s).
  - apply Hsame; by apply (edited_frame s t), (handle_edit s (AddTag text t)).
  - apply Hsame; by apply (edited_frame s t), (handle_edit s (RemoveTag tg t)).
Qed.

(** X13: in a session that starts from the mounted provider, whatever
    the storage held, the selection is always empty or the id of a note of
    the collection, and the sort key is always one of [updatedAt],
    [createdAt], [title]; the theme is [light] or [dark] if the stored one
    was (or none was stored), and no note has a tag twice if no stored
    note had. *)
Theorem session_invariants saved savedTheme l :
  let s := session (initialStore saved savedTheme) l in
  selection_valid s
  ∧ sortBy_valid s
  ∧ (savedTheme = None ∨ savedTheme = Some "light" ∨ savedTheme = Some "dark" →
       theme_valid s)
  ∧ (Forall (λ n, NoDup (tags n)) (default [] saved) → tags_unique s).
Proof.
  simpl.
  assert (∀ P : Store → Prop, (∀ s e, P s → P (handle s e)) →
            ∀ s, P s → P (session s l)) as Hind.
  { intros P Hstep. induction l as [|e l' IH]; intros s Hs; [done|].
    simpl. by apply IH, Hstep. }
  split; [apply Hind; [apply handle_selection_valid|done]|].
  split; [apply Hind; [intros s e; apply handle_sortBy_theme_valid|by exists ByUpdatedAt]|].
  split.
  - intros Hth. apply Hind; [intros s e; apply handle_sortBy_theme_valid|].
    unfold theme_valid. destruct Hth as [->|[->| ->]]; simpl; auto.
  - intros Hsaved. apply Hind; [apply handle_tags_unique|done].
Qed.



Lemma dates_ordered_weaken t t' s :
  t ≤ t' → dates_ordered t s → dates_ordered t' s.
Proof.
  intros Ht Hs. unfold dates_ordered in *.
  eapply Forall_impl; [exact Hs|]. simpl. intros n. lia.
Qed.

Lemma handle_dates_ordered t s e :
  dates_ordered t s →
  match event_time e with
  | Some now => t ≤ now → dates_ordered now (handle s e)
  | None => dates_ordered t (handle s e)
  end.
Proof.
  intros Hs.
  destruct e as [now ms rnd|[]| |v|o|k|v t'|v t'|t'| |text t'|tg t']; simpl;
    try done.
  - intros Ht. constructor; [simpl; lia|]. by apply (dates_ordered_weaken t).
  - constructor.
  - unfold onItem. by destruct (filteredSortedNotes _ _ _ s !! k).
  - intros Ht. eapply edited_dates_ordered; [|exact Ht|exact Hs].
    by apply (handle_edit s (EditTitle v t')).
  - intros Ht. eapply edited_dates_ordered; [|exact Ht|exact Hs].
    by apply (handle_edit s (EditContent v t')).
  - intros Ht. eapply edited_dates_ordered; [|exact Ht|exact Hs].
    by apply (handle_edit s (ClickArchive t')).
  - unfold onDelete. destruct (selectedNote s); [|done].
    by apply deleteNote_Forall.
  - intros Ht. eapply edited_dates_ordered; [|exact Ht|exact Hs].
    by apply (handle_edit s (AddTag text t')).
  - intros Ht. eapply edited_dates_ordered; [|exact Ht|exact Hs].
    by apply (handle_edit s (RemoveTag tg t')).
Qed.

(** X15: if the clock never runs backwards during a session, and at its
    start no note was updated before it was created or after the first
    clock reading, then after any sequence of events no note has an
    [updatedAt] before its [createdAt]. *)
Theorem session_dates_ordered t s l :
  dates_ordered t s → clock_monotone t l →
  Forall (λ n, createdAt n ≤ updatedAt n) (notes (session s l)).
Proof.
  intros Hs Hl.
  assert (∃ t', dates_ordered t' (session s l)) as [t' Ht'].
  { revert t s Hs Hl. induction l as [|e l IH]; intros t s Hs Hl; [by exists t|].
    simpl in Hl |- *. pose proof (handle_dates_ordered t s e Hs) as Hstep.
    destruct (event_time e) as [now|].
    - destruct Hl as [Ht Hl]. by apply (IH now), Hl; apply Hstep.
    - by apply (IH t). }
  eapply Forall_impl; [exact Ht'|]. simpl. by intros n [? _].
Qed.

(** X16: the ids of the collection stay unique under every event, given
    that a "+ New" click draws an id that no note of the collection
    has. *)
Theorem handle_ids_unique s e :
  NoDup (id <$> notes s) →
  (∀ now ms rnd, e = ClickNew now ms rnd → genId ms rnd ∉ id <$> notes s) →
  NoDup (id <$> notes (handle s e)).
Proof.
  intros Hs Hfresh.
  destruct e as [now ms rnd|[]| |v|o|k|v t|v t|t| |text t|tg t]; simpl;
    try done.
  - apply NoDup_cons. split; [|done]. by apply (Hfresh now ms rnd).
  - constructor.
  - unfold onItem. by destruct (filteredSortedNotes _ _ _ s !! k).
  - rewrite (edited_ids s t (onTitle v t s)); [done|].
    by apply (handle_edit s (EditTitle v t)).
  - rewrite (edited_ids s t (onContent v t s)); [done|].
    by apply (handle_edit s (EditContent v t)).
  - rewrite (edited_ids s t (onArchive t s)); [done|].
    by apply (handle_edit s (ClickArchive t)).
  - unfold onDelete. destruct (selectedNote s); [|done].
    apply (sublist_NoDup _ (id <$> notes s)); [done|].
    apply fmap_sublist. simpl. apply sublist_filter.
  - rewrite (edited_ids s t (editorAddTag trim text t s)); [done|].
    by apply (handle_edit s (AddTag text t)).
  - rewrite (edited_ids s t (onRemoveTag tg t s)); [done|].
    by apply (handle_edit s (RemoveTag tg t)).
Qed.

End Sessions.


Lemma session_dates_ordered_witness :
  let a := mkNote "1-a" "Alpha" "" [] 1 3 false in
  let s := mkStore [a] "light" "" "updatedAt" None in
  let l := [ClickNew 4 4 "abc"; ClickItem 1%nat; EditTitle "Beta" 5; ClickDelete] in
  Forall (λ n, createdAt n ≤ updatedAt n)
    (notes (session ascii_trim ascii_toLowerCase code_compare s l)).
Proof.
  intros a s l.
  apply (session_dates_ordered ascii_trim ascii_toLowerCase code_compare 3 s l).
  - constructor; [simpl; lia|constructor].
  - simpl. lia.
Defined.

Lemma handle_ids_unique_witness :
  let a := mkNote "1-a" "Alpha" "" [] 1 1 false in
  let s := mkStore [a] "light" "" "updatedAt" None in
  NoDup (id <$> notes (handle ascii_trim ascii_toLowerCase code_compare s
                         (ClickNew 4 4 "abc"))).
Proof.
  intros a s.
  apply (handle_ids_unique ascii_trim ascii_toLowerCase code_compare s).
  - by apply (bool_decide_unpack _).
  - intros now ms rnd [= <- <- <-]. by apply (bool_decide_unpack _).
Defined.

(** ** Identifiers, again *)

(** X17: two calls of [genId] give the same id exactly when they read the
    same clock value and draw the same random suffix; in particular the
    id tells the clock reading it was made from. *)
Theorem genId_same_id_iff ms rnd ms' rnd' :
  genId ms rnd = genId ms' rnd' ↔ ms = ms' ∧ rnd = rnd'.
Proof.
  split; [apply genId_inj|]. by intros [-> ->].
Qed.
